(** * next-dev-eager: route discovery and warm-up driver (main.go)

    A shallow embedding of [main.go]: the string primitives the program
    uses from Go's [strings] package, the segment loop of the
    [filepath.WalkDir] callback in [findStaticRoutes], the directory walk
    itself over a tree of directory entries, [findAppDirectory], and the
    warm-up loop of [main] as a trace of observable events. *)

From Stdlib Require Import Ascii String Sorting.Sorted.
From stdpp Require Import base list strings gmap sets.

#[local] Set Warnings "-register-all".

Local Open Scope string_scope.
Local Open Scope list_scope.

(** ** Go's [strings] package, on byte strings *)

Module strings.

(** [strings.HasPrefix(s, prefix)]. *)
Definition HasPrefix (s prefix : string) : bool := String.prefix prefix s.

(** [strings.HasSuffix(s, suffix)]:
    [len(s) >= len(suffix) && s[len(s)-len(suffix):] == suffix]. *)
Definition HasSuffix (s suffix : string) : bool :=
  (String.length suffix <=? String.length s)%nat
  && String.eqb
       (substring (String.length s - String.length suffix)
                  (String.length suffix) s)
       suffix.

(** [strings.Split(s, sep)] for a one-byte separator, the only use in the
    program ([sep = "/"]): the pieces of [s] between the occurrences of
    [sep], one more piece than there are separators. *)
Fixpoint Split (s : string) (sep : ascii) : list string :=
  match s with
  | EmptyString => [EmptyString]
  | String c rest =>
      if Ascii.eqb c sep then EmptyString :: Split rest sep
      else match Split rest sep with
           | piece :: pieces => String c piece :: pieces
           | [] => [String c EmptyString]
           end
  end.

(** [strings.Join(elems, sep)]. *)
Fixpoint Join (elems : list string) (sep : string) : string :=
  match elems with
  | [] => EmptyString
  | [e] => e
  | e :: rest => e +:+ sep +:+ Join rest sep
  end.

End strings.

Definition slash : ascii := "/"%char.

(** ** The segment loop of the walk callback *)

(** Why the callback returned early without emitting a route; each reason
    is one of the [log.Printf("Info: Skipping ...")] lines. *)
Inductive SkipReason :=
| PrivateSegment
| InterceptingRoute
| ParallelSlot
| DynamicRoute.

(** What one iteration of [for _, segment := range segments] does with
    the segment: the [if] chain of the loop body, in source order. *)
Inductive SegmentAction :=
| Continue              (* [continue]: empty segment, or route group *)
| Return (r : SkipReason) (* [return nil]: skip this entire path *)
| Append.               (* [finalSegments = append(finalSegments, segment)] *)

Definition segmentAction (segment : string) : SegmentAction :=
  if String.eqb segment "" then Continue
  else if strings.HasPrefix segment "_" then Return PrivateSegment
  else if strings.HasPrefix segment "(" && strings.HasSuffix segment ")"
          && negb (strings.HasPrefix segment "(...") then Continue
  else if String.eqb segment "(.)" || String.eqb segment "(..)"
          || String.eqb segment "(...)" then Return InterceptingRoute
  else if strings.HasPrefix segment "@" then Return ParallelSlot
  else if strings.HasPrefix segment "[" && strings.HasSuffix segment "]"
       then Return DynamicRoute
  else Append.

(** The loop over [segments], threading [finalSegments]. *)
Fixpoint segmentLoop (segments finalSegments : list string)
  : SkipReason + list string :=
  match segments with
  | [] => inr finalSegments
  | segment :: rest =>
      match segmentAction segment with
      | Continue => segmentLoop rest finalSegments
      | Return r => inl r
      | Append => segmentLoop rest (finalSegments ++ [segment])
      end
  end.

(** [route] as the callback builds it from [relPath], lines 127-134: the
    root of the walk is ".", which is the root route. *)
Definition routeOfRel (relPath : string) : string :=
  if String.eqb relPath "." then "/" else "/" +:+ relPath.

(** From [relPath] (the result of [filepath.Rel], already through
    [filepath.ToSlash]) to the final route of the callback, lines 127-176,
    or the reason the path was skipped. *)
Definition finalRouteOf (relPath : string) : SkipReason + string :=
  let route := routeOfRel relPath in
  let segments := strings.Split route slash in
  match segmentLoop segments [] with
  | inl r => inl r
  | inr finalSegments =>
      let finalRoute := "/" +:+ strings.Join finalSegments "/" in
      inr (if String.eqb finalRoute "//" then "/" else finalRoute)
  end.

Definition skipLine (r : SkipReason) (route : string) : string :=
  match r with
  | PrivateSegment => "Info: Skipping path with private segment: " +:+ route
  | InterceptingRoute => "Info: Skipping intercepting route: " +:+ route
  | ParallelSlot => "Info: Skipping parallel route slot: " +:+ route
  | DynamicRoute => "Info: Skipping dynamic route: " +:+ route
  end.

(** ** The directory tree and [filepath.WalkDir] *)

(** A Go [error] value, by its message. *)
Inductive error := errorString (msg : string).

(** [fs.DirEntry], as far as the callback reads it. *)
Record DirEntry := { Name : string; IsDir : bool }.

(** What the walk finds at a path: a non-directory entry, or a directory
    with the entries [os.ReadDir] returns for it (sorted by name) and the
    error it returns with them, if any. *)
Inductive Node :=
| File (name : string)
| Dir (name : string) (entries : list Node) (readErr : option error).

Definition entryOf (n : Node) : DirEntry :=
  match n with
  | File name => {| Name := name; IsDir := false |}
  | Dir name _ _ => {| Name := name; IsDir := true |}
  end.

(** The state the callback closes over: [routeSet], and the lines it has
    written with [log.Printf]. *)
Record WalkState := { routeSet : gset string; logLines : list string }.

(** Where a visited path lies: the names of the directories from [root]
    down to the directory that contains it; [None] for [root] itself,
    whose containing directory is outside the walk. *)
Definition Location := option (list string).

(** [filepath.ToSlash(filepath.Rel(root, filepath.Dir(path)))] for a path
    the walk visits. Entry names are file names (not empty, no separator
    inside), so [path] is [root] joined with the names down to the entry
    and [filepath.Rel] cannot fail: it gives "." for an entry directly
    under [root], the joined names below that, and ".." for [root]
    itself. *)
Definition relPathOf (loc : Location) : string :=
  match loc with
  | None => ".."
  | Some [] => "."
  | Some names => strings.Join names "/"
  end.

Definition isPageFile (d : DirEntry) : bool :=
  let fileName := Name d in
  negb (IsDir d) && strings.HasPrefix fileName "page."
  && (strings.HasSuffix fileName ".js" || strings.HasSuffix fileName ".jsx"
      || strings.HasSuffix fileName ".ts" || strings.HasSuffix fileName ".tsx").

(** The callback passed to [filepath.WalkDir], lines 100-180: the state
    after the call and the error it returns ([None] for [nil]). [d] is
    [None] only when the walk reports that [os.Lstat(root)] failed, and
    then [err] is set. *)
Definition walkFn (st : WalkState) (loc : Location)
    (d : option DirEntry) (err : option error) : WalkState * option error :=
  match err, d with
  | Some e, _ => (st, Some e)
  | None, None => (st, Some (errorString "nil pointer dereference"))
  | None, Some d =>
      if negb (isPageFile d) then (st, None)
      else
        let relPath := relPathOf loc in
        match finalRouteOf relPath with
        | inl r =>
            ({| routeSet := routeSet st;
                logLines := logLines st ++ [skipLine r (routeOfRel relPath)] |},
             None)
        | inr finalRoute =>
            ({| routeSet := {[finalRoute]} ∪ routeSet st;
                logLines := logLines st |},
             None)
        end
  end.

Definition WalkDirFunc : Type :=
  WalkState → Location → option DirEntry → option error
  → WalkState * option error.

(** The loop [for _, d1 := range dirs] of [walkDir], with the recursive
    call as [walk]. *)
Definition walkEntries (walk : Node → WalkState → WalkState * option error)
  : list Node → WalkState → WalkState * option error :=
  fix loop (dirs : list Node) (st : WalkState) :=
    match dirs with
    | [] => (st, None)
    | d1 :: dirs' =>
        match walk d1 st with
        | (st', Some e) => (st', Some e)
        | (st', None) => loop dirs' st'
        end
    end.

(** The location of the entries of a directory [name] found at [loc]. *)
Definition inside (loc : Location) (name : string) : Location :=
  Some (match loc with
        | None => []
        | Some names => names ++ [name]
        end).

(** [walkDir] of package [filepath]: call [fn] on the entry; for a
    directory read its entries, report a read error to [fn] in a second
    call, then walk the entries in order. The first error [fn] returns
    ends the walk. ([fs.SkipDir] and [fs.SkipAll] are left out: no error
    of this program is one of them.) *)
Fixpoint walkDir (fn : WalkDirFunc) (loc : Location) (n : Node)
    (st : WalkState) : WalkState * option error :=
  match fn st loc (Some (entryOf n)) None with
  | (st1, Some e) => (st1, Some e)
  | (st1, None) =>
      match n with
      | File _ => (st1, None)
      | Dir name entries readErr =>
          match readErr with
          | Some e =>
              match fn st1 loc (Some (entryOf n)) (Some e) with
              | (st2, Some e') => (st2, Some e')
              | (st2, None) =>
                  walkEntries (walkDir fn (inside loc name)) entries st2
              end
          | None => walkEntries (walkDir fn (inside loc name)) entries st1
          end
      end
  end.

(** [filepath.WalkDir(root, fn)]: [root] is what [os.Lstat(root)] gives,
    an error or the tree under [root]. *)
Definition WalkDir (root : error + Node) (fn : WalkDirFunc)
    (st : WalkState) : WalkState * option error :=
  match root with
  | inl e => fn st None None (Some e)
  | inr n => walkDir fn None n st
  end.

(** ** What the Go runtime leaves open *)

(** A strict weak ordering, what [sort.Slice] asks of [less]. *)
Record StrictWeakOrder (less : string → string → bool) : Prop := {
  swo_irrefl : ∀ a, less a a = false;
  swo_trans : ∀ a b c, less a b = true → less b c = true → less a c = true;
  swo_incomp : ∀ a b c,
    less a b = false → less b a = false →
    less b c = false → less c b = false →
    less a c = false ∧ less c a = false
}.

(** The two places where the program's result depends on an order Go does
    not fix: [for r := range routeSet] visits the keys of a map in some
    order, and [sort.Slice] is not stable. Each is known by its contract
    only. *)
Class GoRuntime := {
  rangeKeys : gset string → list string;
  rangeKeys_perm : ∀ s, rangeKeys s ≡ₚ elements s;
  sort_Slice : list string → (string → string → bool) → list string;
  sort_Slice_perm : ∀ x less, sort_Slice x less ≡ₚ x;
  sort_Slice_sorted : ∀ x less,
    StrictWeakOrder less →
    Sorted (λ a b, less b a = false) (sort_Slice x less)
}.

(** ** [findStaticRoutes] *)

(** The lines logged during the walk, and the function's result:
    [(nil, err)] or [(routes, nil)]. *)
Definition findStaticRoutes `{GoRuntime} (root : error + Node)
  : list string * (error + list string) :=
  let st0 := {| routeSet := ∅; logLines := [] |} in
  match WalkDir root walkFn st0 with
  | (st, Some err) => (logLines st, inl err)
  | (st, None) => (logLines st, inr (rangeKeys (routeSet st)))
  end.

(** ** [findAppDirectory] and [main] *)

Inductive Event :=
| EvLog (line : string)          (* log.Printf, log.Fatalf *)
| EvPrintln (line : string)      (* fmt.Println *)
| EvFound (n : nat)              (* "Found %d static routes. Warming them up..." *)
| EvGetLine (url : string)       (* fmt.Printf("GET %s ... ", url) *)
| EvHttpGet (url : string)       (* client.Get(url) *)
| EvBodyClose                    (* resp.Body.Close() *)
| EvPrintError (e : error)       (* fmt.Printf("Error: %v\n", err) *)
| EvPrintStatus (status : string) (* "[%s] in %v": status, elapsed time *)
| EvSleep (seconds : nat).       (* time.Sleep *)

Inductive ExitStatus := ExitOK | ExitFatal.

Record Response := { Status : string }.

(** The world [main] runs in: [os.Stat] on a path (its [FileInfo] reduced
    to [IsDir]), what [os.Lstat] and [os.ReadDir] show under a root, and
    the outcome of the [n]-th request of the run. *)
Record World := {
  os_Stat : string → error + bool;
  treeAt : string → error + Node;
  client_Get : nat → string → error + Response
}.

Definition baseURL : string := "http://localhost:3000".

Fixpoint firstFound (stat : string → error + bool) (dirs : list string)
  : option string :=
  match dirs with
  | [] => None
  | dir :: rest =>
      match stat dir with
      | inr _ => Some dir
      | inl _ => firstFound stat rest
      end
  end.

(** [findAppDirectory]: what it logs, and the directory found, or [None]
    when it ends the program with [log.Fatalf]. *)
Definition findAppDirectory (stat : string → error + bool)
  : list Event * option string :=
  let possibleAppDirs := ["app"; "src/app"] in
  match firstFound stat possibleAppDirs with
  | Some dir => ([EvLog ("Found app directory at: ./" +:+ dir)], Some dir)
  | None =>
      ([EvLog "Error: Could not find 'app' or 'src/app' directory. This tool must be run from the root of a Next.js app router project."],
       None)
  end.

(** The comparison given to [sort.Slice]. *)
Definition lessByLen (a b : string) : bool :=
  (String.length a <? String.length b)%nat.

(** The loop [for _, route := range routes], lines 51-71; [k] counts the
    requests made so far. *)
Fixpoint warmLoop (get : nat → string → error + Response) (k : nat)
    (routes : list string) : list Event :=
  match routes with
  | [] => []
  | route :: rest =>
      let url := baseURL +:+ route in
      [EvGetLine url; EvHttpGet url]
      ++ match get k url with
         | inl err => [EvPrintError err; EvSleep 1]
         | inr resp => [EvBodyClose; EvPrintStatus (Status resp); EvSleep 1]
         end
      ++ warmLoop get (S k) rest
  end.

Definition newline : string := String (ascii_of_nat 10) "".

Definition main `{GoRuntime} (w : World) : list Event * ExitStatus :=
  match findAppDirectory (os_Stat w) with
  | (logs, None) => (logs, ExitFatal)
  | (logs, Some appPath) =>
      let start := logs ++ [EvPrintln "Discovering routes..."] in
      match findStaticRoutes (treeAt w appPath) with
      | (logged, inl (errorString msg)) =>
          (start ++ (EvLog <$> logged)
             ++ [EvLog ("Error discovering routes: " +:+ msg)],
           ExitFatal)
      | (logged, inr routes) =>
          if (length routes =? 0)%nat then
            (start ++ (EvLog <$> logged)
               ++ [EvPrintln "No static routes found to warm up."],
             ExitOK)
          else
            let routes := sort_Slice routes lessByLen in
            (start ++ (EvLog <$> logged)
               ++ [EvFound (length routes)]
               ++ warmLoop (client_Get w) 0 routes
               ++ [EvPrintln (newline +:+ "Warm-up complete.")],
             ExitOK)
      end
  end.

(** ** A reference runtime *)

(** Insertion of [x] after the elements it is not less than. *)
Fixpoint insertSorted (less : string → string → bool) (x : string)
    (l : list string) : list string :=
  match l with
  | [] => [x]
  | y :: l' => if less x y then x :: y :: l' else y :: insertSorted less x l'
  end.

Fixpoint insertionSort (l : list string) (less : string → string → bool)
  : list string :=
  match l with
  | [] => []
  | x :: l' => insertSorted less x (insertionSort l' less)
  end.

(** The trees of the round-trip example: [a/b/c/page.tsx] under the root,
    and the same with [a/b/c/[id]/page.tsx] beside it. *)
Definition treeABC : Node :=
  Dir "app" [Dir "a" [Dir "b" [Dir "c" [File "page.tsx"] None] None] None] None.

Definition treeABCid : Node :=
  Dir "app"
    [Dir "a" [Dir "b" [Dir "c" [Dir "[id]" [File "page.tsx"] None;
                                File "page.tsx"] None] None] None] None.

(** ** Notions used to state the properties *)

(** [c] occurs in [s]. *)
Fixpoint containsByte (s : string) (c : ascii) : bool :=
  match s with
  | EmptyString => false
  | String a rest => Ascii.eqb a c || containsByte rest c
  end.

Fixpoint lastByte (s : string) : option ascii :=
  match s with
  | EmptyString => None
  | String a EmptyString => Some a
  | String _ rest => lastByte rest
  end.

(** A name [os.ReadDir] can return for a directory entry: not empty, no
    separator inside, and neither of the two special entries. *)
Definition validName (name : string) : bool :=
  negb (String.eqb name "") && negb (containsByte name slash)
  && negb (String.eqb name ".") && negb (String.eqb name "..").

(** The segments that reach [append] in the segment loop. *)
Definition appended (segment : string) : bool :=
  match segmentAction segment with
  | Append => true
  | _ => false
  end.

(** The path components of a route: the pieces between its slashes that
    are not empty. *)
Definition components (route : string) : list string :=
  filter (λ piece, piece ≠ "") (strings.Split route slash).

(** Some directory under (and including) [n] cannot be read. *)
Fixpoint hasReadError (n : Node) : bool :=
  match n with
  | File _ => false
  | Dir _ entries readErr =>
      match readErr with Some _ => true | None => false end
      || existsb hasReadError entries
  end.

(** The traversal of [root] meets an error. *)
Definition traversalFails (root : error + Node) : bool :=
  match root with
  | inl _ => true
  | inr n => hasReadError n
  end.

(** The locations of the page files under [n], in the order of the walk. *)
Fixpoint pageLocations (loc : Location) (n : Node) : list Location :=
  match n with
  | File _ => if isPageFile (entryOf n) then [loc] else []
  | Dir name entries _ =>
      concat (map (pageLocations (inside loc name)) entries)
  end.

(** What the callback does to the state for a page file at [loc]. *)
Definition visitPage (st : WalkState) (loc : Location) : WalkState :=
  (walkFn st loc (Some {| Name := "page.tsx"; IsDir := false |}) None).1.

Definition routeAt (loc : Location) : option string :=
  match finalRouteOf (relPathOf loc) with
  | inl _ => None
  | inr route => Some route
  end.

(** The URLs requested in a trace, in order. *)
Definition httpGets (trace : list Event) : list string :=
  omap (λ e, match e with EvHttpGet url => Some url | _ => None end) trace.

(** A route in canonical form: a leading slash, and no trailing slash
    except on the root route. *)
Definition canonical (route : string) : Prop :=
  strings.HasPrefix route "/" = true
  ∧ (strings.HasSuffix route "/" = true → route = "/").

(** The three intercepting-route markers. *)
Definition interceptorMarker (segment : string) : bool :=
  String.eqb segment "(.)" || String.eqb segment "(..)"
  || String.eqb segment "(...)".

(** A page below a directory named by a marker: [feed/(.)/page.tsx]. *)
Definition treeFeedMarker : Node :=
  Dir "app" [Dir "feed" [Dir "(.)" [File "page.tsx"] None] None] None.

(** The site of the ordering example: pages at the root, in [about] and
    in [blog/post]. *)
Definition treeSite : Node :=
  Dir "app" [Dir "about" [File "page.tsx"] None;
             Dir "blog" [Dir "post" [File "page.tsx"] None] None;
             File "page.tsx"] None.

(** A directory of the tree cannot be read. *)
Definition treeUnreadable : Node :=
  Dir "app" [Dir "about" [File "page.tsx"] None;
             Dir "blog" [] (Some (errorString "permission denied"))] None.

(** A working directory with [app] only, holding [tree], and a server
    that refuses every connection. *)
Definition worldWith (tree : Node) : World := {|
  os_Stat := λ path,
    if String.eqb path "app" then inr true
    else inl (errorString "no such file or directory");
  treeAt := λ _, inr tree;
  client_Get := λ _ _, inl (errorString "connection refused")
|}.

Definition st0 : WalkState := {| routeSet := ∅; logLines := [] |}.

(** A segment whose first byte is none of the four bytes the loop tests
    for. *)
Definition plainStart (segment : string) : bool :=
  match segment with
  | EmptyString => false
  | String c _ =>
      negb (Ascii.eqb c "_") && negb (Ascii.eqb c "(")
      && negb (Ascii.eqb c "@") && negb (Ascii.eqb c "[")
  end.

(** The first read error the walk of [n] comes to, in the order of the
    walk. *)
Fixpoint firstReadError (n : Node) : option error :=
  match n with
  | File _ => None
  | Dir _ entries readErr =>
      match readErr with
      | Some e => Some e
      | None => head (omap firstReadError entries)
      end
  end.

Definition firstError (root : error + Node) : option error :=
  match root with
  | inl e => Some e
  | inr n => firstReadError n
  end.

(** The line logged for a page file at [loc], when its path is skipped. *)
Definition skipLogAt (loc : Location) : option string :=
  match finalRouteOf (relPathOf loc) with
  | inl r => Some (skipLine r (routeOfRel (relPathOf loc)))
  | inr _ => None
  end.

(** The seconds a trace spends in [time.Sleep]. *)
Definition sleptSeconds (trace : list Event) : nat :=
  sum_list (omap (λ e, match e with EvSleep n => Some n | _ => None end) trace).

(** The names [isPageFile] takes are built on these extensions. *)
Definition pageExtensions : list string := [".js"; ".jsx"; ".ts"; ".tsx"].

(** * Properties *)

(** ** Byte strings *)

#[local] Arguments String.append !_ _ / : simpl nomatch.

Lemma lastByte_append (a b : string) :
  b ≠ "" → lastByte (a +:+ b) = lastByte b.
Proof.
  intros Hb. induction a as [|x a IH]; simpl; [done |].
  rewrite IH. destruct (a +:+ b) eqn:E; [| done].
  destruct a; simpl in E; [done | discriminate].
Qed.

Lemma lastByte_contains (s : string) (c : ascii) :
  lastByte s = Some c → containsByte s c = true.
Proof.
  induction s as [|a s IH]; simpl; [done |].
  destruct s as [|b s].
  - intros [= ->]. by rewrite Ascii.eqb_refl.
  - intros H. rewrite (IH H). by rewrite orb_true_r.
Qed.

(** A one-byte suffix is the last byte. *)
Lemma HasSuffix_byte (s : string) (c : ascii) :
  strings.HasSuffix s (String c "") = true ↔ lastByte s = Some c.
Proof.
  unfold strings.HasSuffix.
  induction s as [|a s IH]; [simpl; split; discriminate |].
  destruct s as [|b s].
  - simpl. destruct (Ascii.eqb_spec a c) as [->|Hne]; split; try done.
    + intros [= ?]. done.
  - change (String.length (String a (String b s))) with (S (S (String.length s))).
    change (String.length (String b s)) with (S (String.length s)) in IH.
    change (String.length (String c "")) with 1%nat in *.
    replace (S (S (String.length s)) - 1)%nat with (S (String.length s)) by lia.
    replace (S (String.length s) - 1)%nat with (String.length s) in IH by lia.
    change (lastByte (String a (String b s))) with (lastByte (String b s)).
    rewrite <- IH. simpl. done.
Qed.

Lemma HasPrefix_byte (s : string) (c : ascii) :
  strings.HasPrefix s (String c "") = true ↔ ∃ rest, s = String c rest.
Proof.
  unfold strings.HasPrefix. destruct s as [|a s]; simpl.
  - split; [discriminate | intros [? ?]; discriminate].
  - destruct (ascii_dec c a) as [->|Hne].
    + destruct s; split; eauto.
    + split; [discriminate | intros [? [= ? ?]]; congruence].
Qed.

(** No piece of a split contains the separator. *)
Lemma Split_pieces (s : string) (sep : ascii) :
  Forall (λ piece, containsByte piece sep = false) (strings.Split s sep).
Proof.
  induction s as [|a s IH]; simpl.
  - by repeat constructor.
  - destruct (Ascii.eqb a sep) eqn:Ea.
    + by constructor.
    + destruct (strings.Split s sep) as [|piece pieces].
      * repeat constructor. simpl. by rewrite Ea.
      * inversion IH; subst. constructor; [| done]. simpl. by rewrite Ea.
Qed.

Lemma Split_whole (s : string) (sep : ascii) :
  containsByte s sep = false → strings.Split s sep = [s].
Proof.
  induction s as [|a s IH]; simpl; [done |].
  intros [Ea Hs]%orb_false_iff. rewrite Ea, (IH Hs). done.
Qed.

Lemma Split_append (a b : string) (sep : ascii) :
  containsByte a sep = false →
  strings.Split (a +:+ String sep b) sep = a :: strings.Split b sep.
Proof.
  induction a as [|x a IH]; simpl.
  - intros _. by rewrite Ascii.eqb_refl.
  - intros [Ex Ha]%orb_false_iff. rewrite Ex, (IH Ha). done.
Qed.

Lemma Join_cons2 (x y : string) (rest : list string) (sep : string) :
  strings.Join (x :: y :: rest) sep = x +:+ sep +:+ strings.Join (y :: rest) sep.
Proof. done. Qed.

(** Splitting joined names gives the names back. *)
Lemma Split_Join (names : list string) :
  names ≠ [] →
  Forall (λ name, containsByte name slash = false) names →
  strings.Split (strings.Join names "/") slash = names.
Proof.
  induction names as [|x names IH]; [done |].
  intros _ Hall. inversion Hall as [|? ? Hx Hrest]; subst.
  destruct names as [|y names].
  - simpl. by apply Split_whole.
  - rewrite Join_cons2. change ("/" +:+ ?t) with (String slash t).
    rewrite Split_append by done. f_equal. by apply IH.
Qed.

(** ** The segment loop *)

Lemma segmentLoop_app (segments acc : list string) :
  segmentLoop segments acc
  = match segmentLoop segments [] with
    | inl r => inl r
    | inr final => inr (acc ++ final)
    end.
Proof.
  revert acc. induction segments as [|s segments IH]; intros acc; simpl.
  - by rewrite app_nil_r.
  - destruct (segmentAction s); [apply IH | done |].
    rewrite (IH (acc ++ [s])), (IH [s]).
    destruct (segmentLoop segments []); [done |]. by rewrite <- app_assoc.
Qed.

(** The loop emits exactly the appended segments, in their order, unless
    some segment makes the callback return. *)
Lemma segmentLoop_inr (segments final : list string) :
  segmentLoop segments [] = inr final →
  final = filter (λ s, appended s = true) segments
  ∧ Forall (λ s, ∀ r, segmentAction s ≠ Return r) segments.
Proof.
  revert final. induction segments as [|s segments IH]; intros final; simpl.
  - intros [= <-]. split; [done | constructor].
  - unfold appended at 1. destruct (segmentAction s) eqn:Es; [| done |].
    + intros H. destruct (IH _ H) as [-> Hall]. split.
      * rewrite filter_cons_False; [done |]. unfold appended. by rewrite Es.
      * constructor; [congruence | done].
    + rewrite segmentLoop_app.
      destruct (segmentLoop segments []) as [|final'] eqn:E; [done |].
      intros [= <-]. destruct (IH _ eq_refl) as [-> Hall]. split.
      * rewrite filter_cons_True; [done |]. unfold appended. by rewrite Es.
      * constructor; [congruence | done].
Qed.

Lemma segmentLoop_no_return (segments : list string) :
  Forall (λ s, ∀ r, segmentAction s ≠ Return r) segments →
  segmentLoop segments [] = inr (filter (λ s, appended s = true) segments).
Proof.
  induction 1 as [|s segments Hs Hall IH]; simpl; [done |].
  unfold appended at 1. destruct (segmentAction s) eqn:Es.
  - rewrite filter_cons_False; [done |]. unfold appended. by rewrite Es.
  - by destruct (Hs r).
  - rewrite segmentLoop_app, IH.
    rewrite filter_cons_True; [done |]. unfold appended. by rewrite Es.
Qed.

(** One returning segment anywhere ends the loop without a route. *)
Lemma segmentLoop_return (segments : list string) (s : string) (r : SkipReason) :
  s ∈ segments → segmentAction s = Return r →
  ∃ r', segmentLoop segments [] = inl r'.
Proof.
  intros Hin Hs. destruct (segmentLoop segments []) as [r'|final] eqn:E; [eauto |].
  apply segmentLoop_inr in E as [_ Hall].
  rewrite Forall_forall in Hall. by destruct (Hall s Hin r).
Qed.

Lemma appended_not_empty (s : string) : appended s = true → s ≠ "".
Proof. intros H ->. done. Qed.

(** The segments the loop keeps are not empty and hold no slash. *)
Lemma segmentLoop_Split_final (route : string) (final : list string) :
  segmentLoop (strings.Split route slash) [] = inr final →
  Forall (λ s, s ≠ "" ∧ containsByte s slash = false) final.
Proof.
  intros [-> _]%segmentLoop_inr.
  apply Forall_forall. intros s [Hs Hin]%list_elem_of_filter. split.
  - by apply appended_not_empty.
  - pose proof (Split_pieces route slash) as Hall.
    rewrite Forall_forall in Hall. by apply Hall.
Qed.

Lemma Join_not_slash (final : list string) :
  Forall (λ s, s ≠ "" ∧ containsByte s slash = false) final →
  strings.Join final "/" ≠ "/".
Proof.
  intros Hall. destruct final as [|x [|y rest]]; [done | |].
  - simpl. inversion Hall as [|? ? [_ Hx] _]; subst. intros ->. done.
  - rewrite Join_cons2. inversion Hall as [|? ? [Hx _] _]; subst.
    destruct x as [|a x]; [done |]. simpl. intros [= _ E].
    destruct x; simpl in E; discriminate.
Qed.

(** The test [finalRoute == "//"] never holds: the route is the slash
    followed by the joined segments. *)
Lemma finalRouteOf_eq (relPath : string) :
  finalRouteOf relPath
  = match segmentLoop (strings.Split (routeOfRel relPath) slash) [] with
    | inl r => inl r
    | inr final => inr ("/" +:+ strings.Join final "/")
    end.
Proof.
  unfold finalRouteOf.
  destruct (segmentLoop _ []) as [r|final] eqn:E; [done |].
  apply segmentLoop_Split_final, Join_not_slash in E.
  destruct (String.eqb_spec ("/" +:+ strings.Join final "/") "//") as [H|H];
    [| done].
  simpl in H. injection H as H. done.
Qed.

Lemma validName_inv (name : string) :
  validName name = true →
  name ≠ "" ∧ containsByte name slash = false ∧ name ≠ "." ∧ name ≠ "..".
Proof.
  unfold validName. rewrite !andb_true_iff, !negb_true_iff.
  intros [[[H1 H2] H3] H4].
  apply String.eqb_neq in H1, H3, H4. done.
Qed.

Lemma Join_names_not_dot (name : string) (names : list string) :
  Forall (λ n, validName n = true) (name :: names) →
  strings.Join (name :: names) "/" ≠ ".".
Proof.
  intros Hall. inversion Hall as [|? ? Hn _]; subst.
  apply validName_inv in Hn as (Hne & _ & Hdot & _).
  destruct names as [|y rest]; [done |]. rewrite Join_cons2.
  destruct name as [|a name]; [done |]. simpl. intros [= _ E].
  destruct name; simpl in E; discriminate.
Qed.

(** The segments of a location are the empty piece before the leading
    slash and then the directory names. *)
Lemma segments_of_names (names : list string) :
  Forall (λ n, validName n = true) names →
  strings.Split (routeOfRel (relPathOf (Some names))) slash
  = "" :: match names with [] => [""] | _ => names end.
Proof.
  intros Hall. destruct names as [|name names]; [done |].
  unfold routeOfRel, relPathOf.
  destruct (String.eqb_spec (strings.Join (name :: names) "/") ".") as [E|_].
  - by apply Join_names_not_dot in E.
  - change ("/" +:+ ?t) with (String slash t).
    change (strings.Split (String slash ?t) slash)
      with ("" :: strings.Split t slash).
    f_equal. apply Split_Join; [done |].
    eapply Forall_impl; [exact Hall |]. intros n Hn. simpl in Hn.
    by apply validName_inv in Hn as (_ & ? & _).
Qed.

(** The route of a page file in the directory [names] below the root. *)
Lemma finalRouteOf_names (names : list string) :
  Forall (λ n, validName n = true) names →
  finalRouteOf (relPathOf (Some names))
  = match segmentLoop names [] with
    | inl r => inl r
    | inr final => inr ("/" +:+ strings.Join final "/")
    end.
Proof.
  intros Hall. rewrite finalRouteOf_eq, segments_of_names by done.
  destruct names; done.
Qed.

Lemma components_route (final : list string) :
  Forall (λ s, s ≠ "" ∧ containsByte s slash = false) final →
  components ("/" +:+ strings.Join final "/") = final.
Proof.
  intros Hall. unfold components.
  change ("/" +:+ ?t) with (String slash t).
  change (strings.Split (String slash ?t) slash)
    with ("" :: strings.Split t slash).
  rewrite filter_cons_False by (intros H; by apply H).
  destruct final as [|x final]; [done |].
  rewrite Split_Join; [| done |].
  - clear -Hall. induction Hall as [|y l [Hy _] _ IH]; [done |].
    by rewrite filter_cons_True, IH.
  - eapply Forall_impl; [exact Hall |]. by intros s [_ ?].
Qed.

(** ** The walk *)

(** Induction on a tree, with the hypothesis for every entry of a
    directory. *)
Fixpoint Node_nested_ind (P : Node → Prop)
    (HFile : ∀ name, P (File name))
    (HDir : ∀ name entries readErr,
        Forall P entries → P (Dir name entries readErr))
    (n : Node) : P n :=
  match n with
  | File name => HFile name
  | Dir name entries readErr =>
      HDir name entries readErr
        ((fix all (ds : list Node) : Forall P ds :=
            match ds with
            | [] => @List.Forall_nil Node P
            | d :: ds' =>
                @List.Forall_cons Node P d ds' (Node_nested_ind P HFile HDir d) (all ds')
            end) entries)
  end.

Lemma isPageFile_page_tsx :
  isPageFile {| Name := "page.tsx"; IsDir := false |} = true.
Proof. reflexivity. Qed.

Lemma walkFn_error st loc d e : walkFn st loc d (Some e) = (st, Some e).
Proof. done. Qed.

Lemma walkFn_entry st loc d :
  walkFn st loc (Some d) None
  = (if isPageFile d then visitPage st loc else st, None).
Proof.
  unfold visitPage, walkFn. rewrite isPageFile_page_tsx. simpl.
  destruct (isPageFile d); simpl; [| done].
  by destruct (finalRouteOf (relPathOf loc)).
Qed.

Lemma walkFn_directory st loc name entries readErr :
  walkFn st loc (Some (entryOf (Dir name entries readErr))) None = (st, None).
Proof. by rewrite walkFn_entry. Qed.

Lemma visitPage_routeSet st loc :
  routeSet (visitPage st loc)
  = match routeAt loc with
    | Some route => {[route]} ∪ routeSet st
    | None => routeSet st
    end.
Proof.
  unfold visitPage, routeAt, walkFn. rewrite isPageFile_page_tsx. simpl.
  by destruct (finalRouteOf (relPathOf loc)).
Qed.

Lemma walkEntries_cons walk d ds st :
  walkEntries walk (d :: ds) st
  = match walk d st with
    | (st', Some e) => (st', Some e)
    | (st', None) => walkEntries walk ds st'
    end.
Proof. done. Qed.

(** Without a read error the walk calls the callback on every page file,
    in order, and returns no error. *)
Lemma walkDir_ok (n : Node) :
  ∀ loc st, hasReadError n = false →
    walkDir walkFn loc n st = (foldl visitPage st (pageLocations loc n), None).
Proof.
  induction n as [name | name entries readErr IH] using Node_nested_ind;
    intros loc st Hok.
  - cbn [walkDir pageLocations]. rewrite walkFn_entry.
    by destruct (isPageFile _).
  - simpl in Hok. apply orb_false_iff in Hok as [Hread Hentries].
    destruct readErr as [e|]; [done |].
    cbn [walkDir]. rewrite walkFn_directory. cbn [pageLocations].
    generalize (inside loc name). intros loc'. clear Hread.
    revert st. induction entries as [|d ds IHds]; intros st; [done |].
    simpl in Hentries. apply orb_false_iff in Hentries as [Hd Hds].
    inversion IH as [|? ? IHd IHrest]; subst.
    rewrite walkEntries_cons, (IHd loc' st Hd).
    rewrite (IHds IHrest Hds). simpl. by rewrite foldl_app.
Qed.

(** A read error anywhere in the tree ends the walk with an error. *)
Lemma walkDir_error (n : Node) :
  ∀ loc st, hasReadError n = true →
    ∃ st' e, walkDir walkFn loc n st = (st', Some e).
Proof.
  induction n as [name | name entries readErr IH] using Node_nested_ind;
    intros loc st Herr; [done |].
  cbn [walkDir]. rewrite walkFn_directory.
  destruct readErr as [e|].
  - rewrite walkFn_error. eauto.
  - simpl in Herr. generalize (inside loc name). intros loc'.
    revert st. induction entries as [|d ds IHds]; intros st; [done |].
    simpl in Herr. inversion IH as [|? ? IHd IHrest]; subst.
    rewrite walkEntries_cons.
    destruct (hasReadError d) eqn:Hd.
    + destruct (IHd loc' st eq_refl) as (st' & e & ->). eauto.
    + rewrite (walkDir_ok d loc' st Hd). by apply IHds.
Qed.

Lemma foldl_visitPage_routeSet (locs : list Location) (st : WalkState) :
  routeSet (foldl visitPage st locs)
  = list_to_set (omap routeAt locs) ∪ routeSet st.
Proof.
  revert st. induction locs as [|loc locs IH]; intros st; simpl.
  - by rewrite (left_id_L ∅ (∪)).
  - rewrite IH, visitPage_routeSet.
    destruct (routeAt loc) as [route|]; simpl; [| done].
    by rewrite (assoc_L (∪)), (comm_L (∪) _ {[route]}).
Qed.

(** The routes of a walk are the routes of the page files it visits. *)
Lemma findStaticRoutes_ok `{GoRuntime} (root : Node) :
  hasReadError root = false →
  ∃ logged routes,
    findStaticRoutes (inr root) = (logged, inr routes)
    ∧ routes ≡ₚ elements
        (list_to_set (omap routeAt (pageLocations None root)) : gset string).
Proof.
  intros Hok. unfold findStaticRoutes, WalkDir.
  rewrite (walkDir_ok root None _ Hok).
  eexists _, _. split; [done |].
  rewrite rangeKeys_perm, foldl_visitPage_routeSet. simpl.
  by rewrite (right_id_L ∅ (∪)).
Qed.

Lemma findStaticRoutes_error `{GoRuntime} (root : error + Node) :
  traversalFails root = true →
  ∃ logged e, findStaticRoutes root = (logged, inl e).
Proof.
  intros Hfail. unfold findStaticRoutes, WalkDir.
  destruct root as [e | n]; simpl.
  - eauto.
  - destruct (walkDir_error n None {| routeSet := ∅; logLines := [] |} Hfail)
      as (st' & e & ->). eauto.
Qed.

(** ** Sorting by length *)

Lemma lessByLen_strict_weak : StrictWeakOrder lessByLen.
Proof.
  unfold lessByLen. split.
  - intros a. apply Nat.ltb_irrefl.
  - intros a b c. rewrite !Nat.ltb_lt. lia.
  - intros a b c. rewrite !Nat.ltb_ge. lia.
Qed.

Lemma swo_asym less (a b : string) :
  StrictWeakOrder less → less a b = true → less b a = false.
Proof.
  intros Hswo Hab. destruct (less b a) eqn:Hba; [| done].
  rewrite <- (swo_irrefl less Hswo a). symmetry. by apply (swo_trans less Hswo a b a).
Qed.

Lemma insertSorted_perm less (x : string) (l : list string) :
  insertSorted less x l ≡ₚ x :: l.
Proof.
  induction l as [|y l IH]; simpl; [done |].
  destruct (less x y); [done |]. rewrite IH. apply Permutation_swap.
Qed.

Lemma insertionSort_perm (l : list string) less : insertionSort l less ≡ₚ l.
Proof.
  induction l as [|x l IH]; simpl; [done |].
  by rewrite insertSorted_perm, IH.
Qed.

Lemma insertSorted_sorted less (x : string) (l : list string) :
  StrictWeakOrder less →
  Sorted (λ a b, less b a = false) l →
  Sorted (λ a b, less b a = false) (insertSorted less x l).
Proof.
  intros Hswo. induction 1 as [|y l Hl IH Hy]; simpl.
  - by repeat constructor.
  - destruct (less x y) eqn:Hxy.
    + constructor; [by constructor |]. constructor. by apply swo_asym.
    + constructor; [done |].
      destruct Hy as [|z l Hz]; simpl.
      * by constructor.
      * destruct (less x z); by constructor.
Qed.

Lemma insertionSort_sorted (l : list string) less :
  StrictWeakOrder less →
  Sorted (λ a b, less b a = false) (insertionSort l less).
Proof.
  intros Hswo. induction l as [|x l IH]; simpl; [constructor |].
  by apply insertSorted_sorted.
Qed.

(** One runtime that meets the contracts: keys in the order of
    [elements], and insertion sort. *)
#[local] Instance referenceRuntime : GoRuntime := {|
  rangeKeys := elements;
  rangeKeys_perm := λ s, reflexivity (elements s);
  sort_Slice := insertionSort;
  sort_Slice_perm := insertionSort_perm;
  sort_Slice_sorted := insertionSort_sorted
|}.

(** What [sort.Slice] with [lessByLen] leaves: lengths never decrease
    along the slice. *)
Lemma sort_Slice_by_length `{GoRuntime} (routes : list string) :
  StronglySorted (λ a b, (String.length a ≤ String.length b)%nat)
    (sort_Slice routes lessByLen).
Proof.
  apply Sorted_StronglySorted.
  - intros a b c. lia.
  - pose proof (sort_Slice_sorted routes lessByLen lessByLen_strict_weak) as Hs.
    induction Hs as [|a l Hl IH Hhd]; constructor; [done |].
    destruct Hhd as [|b l Hb]; constructor.
    unfold lessByLen in Hb. apply Nat.ltb_ge in Hb. lia.
Qed.

Lemma rangeKeys_singleton `{GoRuntime} (route : string) :
  rangeKeys {[route]} = [route].
Proof.
  apply Permutation_singleton_r. by rewrite rangeKeys_perm, elements_singleton.
Qed.

(** ** The trace of [main] *)

Lemma httpGets_app (t1 t2 : list Event) :
  httpGets (t1 ++ t2) = httpGets t1 ++ httpGets t2.
Proof. apply omap_app. Qed.

Lemma httpGets_logs (lines : list string) : httpGets (EvLog <$> lines) = [].
Proof. unfold httpGets. induction lines as [|l lines IH]; simpl; auto. Qed.

Lemma httpGets_warmLoop get k (routes : list string) :
  httpGets (warmLoop get k routes) = (λ route, baseURL +:+ route) <$> routes.
Proof.
  revert k. induction routes as [|route routes IH]; intros k; [done |].
  cbn [warmLoop]. rewrite !httpGets_app, IH.
  by destruct (get k (baseURL +:+ route)).
Qed.

Lemma warmLoop_app get k (pre rest : list string) :
  warmLoop get k (pre ++ rest)
  = warmLoop get k pre ++ warmLoop get (k + length pre) rest.
Proof.
  revert k. induction pre as [|route pre IH]; intros k.
  - simpl. by rewrite Nat.add_0_r, ?app_nil_r.
  - cbn [warmLoop app length]. rewrite IH, <- !app_assoc.
    by replace (S k + length pre)%nat with (k + S (length pre))%nat by lia.
Qed.

Lemma findAppDirectory_found stat (appPath : string) :
  (findAppDirectory stat).2 = Some appPath →
  findAppDirectory stat
  = ([EvLog ("Found app directory at: ./" +:+ appPath)], Some appPath).
Proof.
  unfold findAppDirectory. destruct (firstFound stat _); [| done].
  by intros [= ->].
Qed.

Lemma httpGets_main `{GoRuntime} (w : World) appPath logged routes :
  (findAppDirectory (os_Stat w)).2 = Some appPath →
  findStaticRoutes (treeAt w appPath) = (logged, inr routes) →
  httpGets (main w).1
  = (λ route, baseURL +:+ route) <$> sort_Slice routes lessByLen.
Proof.
  intros Happ Hroutes. unfold main.
  rewrite (findAppDirectory_found _ _ Happ), Hroutes.
  destruct routes as [|route routes].
  - pose proof (sort_Slice_perm [] lessByLen) as Hp.
    apply Permutation_nil_r in Hp. rewrite Hp.
    cbn [length Nat.eqb fst]. by rewrite !httpGets_app, httpGets_logs.
  - cbn [length Nat.eqb fst]. rewrite !httpGets_app, httpGets_logs.
    rewrite httpGets_warmLoop. cbn [app]. apply app_nil_r.
Qed.

(** ** Segments *)

Lemma HasPrefix_cons (s : string) (c : ascii) (p : string) :
  strings.HasPrefix s (String c p) = true →
  ∃ rest, s = String c rest ∧ strings.HasPrefix rest p = true.
Proof.
  unfold strings.HasPrefix. destruct s as [|a s]; simpl; [done |].
  destruct (ascii_dec c a) as [->|]; [eauto | done].
Qed.

Lemma segmentAction_private (s : string) :
  strings.HasPrefix s "_" = true → segmentAction s = Return PrivateSegment.
Proof.
  intros H. unfold segmentAction. rewrite H.
  by apply HasPrefix_cons in H as (rest & -> & _).
Qed.

Lemma segmentAction_group (g : string) :
  strings.HasPrefix g "(" = true → strings.HasSuffix g ")" = true →
  strings.HasPrefix g "(..." = false →
  segmentAction g = Continue.
Proof.
  intros Hp Hs Hd. unfold segmentAction. rewrite Hp, Hs, Hd.
  by apply HasPrefix_cons in Hp as (rest & -> & _).
Qed.

Lemma segmentAction_open_paren (rest : string) :
  strings.HasSuffix (String "(" rest) ")" = false →
  segmentAction (String "(" rest) = Append.
Proof.
  intros Hs. unfold segmentAction. rewrite Hs.
  destruct (String.eqb_spec (String "(" rest) "(.)") as [E|_];
    [by rewrite E in Hs |].
  destruct (String.eqb_spec (String "(" rest) "(..)") as [E|_];
    [by rewrite E in Hs |].
  destruct (String.eqb_spec (String "(" rest) "(...)") as [E|_];
    [by rewrite E in Hs |].
  unfold strings.HasPrefix. simpl. by destruct rest.
Qed.

Lemma Join_not_empty (final : list string) :
  Forall (λ s, s ≠ "" ∧ containsByte s slash = false) final → final ≠ [] →
  strings.Join final "/" ≠ "".
Proof.
  intros Hall Hne. destruct final as [|x [|y rest]]; [done | |];
    inversion Hall as [|? ? [Hx _] _]; subst; [done |].
  rewrite Join_cons2. by destruct x.
Qed.

Lemma Join_lastByte (final : list string) :
  Forall (λ s, s ≠ "" ∧ containsByte s slash = false) final →
  lastByte (strings.Join final "/") ≠ Some slash.
Proof.
  induction final as [|x final IH]; [done |].
  intros Hall. inversion Hall as [|? ? [Hx Hslash] Hrest]; subst.
  destruct final as [|y rest].
  - simpl. intros H%lastByte_contains. congruence.
  - rewrite Join_cons2, !lastByte_append; [by apply IH | |].
    + by apply Join_not_empty.
    + change ("/" +:+ ?t) with (String slash t). done.
Qed.

(** Whatever [relPath] is, a route the callback builds is canonical. *)
Lemma finalRouteOf_canonical (relPath route : string) :
  finalRouteOf relPath = inr route → canonical route.
Proof.
  rewrite finalRouteOf_eq.
  destruct (segmentLoop _ []) as [|final] eqn:E; [done |]. intros [= <-].
  apply segmentLoop_Split_final in E.
  split; [apply HasPrefix_byte; by eexists |].
  intros Hsuf%HasSuffix_byte. destruct final as [|x final]; [done |].
  change (lastByte ("/" +:+ strings.Join (x :: final) "/") = Some slash) in Hsuf.
  rewrite lastByte_append in Hsuf.
  - by apply Join_lastByte in E.
  - by apply Join_not_empty.
Qed.

(** What a successful discovery returns: there was no traversal error,
    and the routes are those of the page files, each once. *)
Lemma findStaticRoutes_inr `{GoRuntime} root logged routes :
  findStaticRoutes root = (logged, inr routes) →
  ∃ n, root = inr n ∧ hasReadError n = false
       ∧ NoDup routes
       ∧ ∀ route, route ∈ routes ↔
           ∃ loc, loc ∈ pageLocations None n ∧ routeAt loc = Some route.
Proof.
  intros Hres. destruct root as [e | n].
  - destruct (findStaticRoutes_error (inl e) eq_refl) as (? & ? & E). congruence.
  - destruct (hasReadError n) eqn:Hn.
    + destruct (findStaticRoutes_error (inr n) Hn) as (? & ? & E). congruence.
    + destruct (findStaticRoutes_ok n Hn) as (logged' & routes' & E & Hperm).
      rewrite E in Hres. injection Hres as -> ->.
      exists n. split; [done |]. split; [done |]. split.
      * rewrite Hperm. apply NoDup_elements.
      * intros route.
        rewrite Hperm, elem_of_elements, elem_of_list_to_set, list_elem_of_omap.
        done.
Qed.

(** * The claims *)

Lemma WalkDir_treeFeedMarker :
  WalkDir (inr treeFeedMarker) walkFn st0
  = ({| routeSet := {["/feed"]}; logLines := [] |}, None).
Proof. vm_compute. reflexivity. Qed.

(** C1. A segment that is exactly one of the three interceptor markers
    is meant to disqualify the whole path. The loop does so for [(...)]
    only: [(.)] and [(..)] begin with an opening parenthesis, end with a
    closing one and do not begin with [(...], so the route-group test
    before the marker test takes them and they are dropped like a group.
    The page [feed/(.)/page.tsx] emits the route [/feed]. *)
Theorem interceptor_marker_taken_as_group `{GoRuntime} :
  segmentAction "(...)" = Return InterceptingRoute
  ∧ segmentAction "(.)" = Continue
  ∧ segmentAction "(..)" = Continue
  ∧ finalRouteOf (relPathOf (Some ["feed"; "(.)"])) = inr "/feed"
  ∧ (findStaticRoutes (inr treeFeedMarker)).2 = inr ["/feed"].
Proof.
  repeat split; try reflexivity.
  unfold findStaticRoutes. fold st0. rewrite WalkDir_treeFeedMarker.
  cbn [snd routeSet]. by rewrite rangeKeys_singleton.
Qed.

Lemma segmentLoop_drop (g : string) (pre post acc : list string) :
  segmentAction g = Continue →
  segmentLoop (pre ++ g :: post) acc = segmentLoop (pre ++ post) acc.
Proof.
  intros Hg. revert acc. induction pre as [|s pre IH]; intros acc; simpl.
  - by rewrite Hg.
  - destruct (segmentAction s); auto.
Qed.

Lemma Forall_validName_drop (g : string) (pre post : list string) :
  Forall (λ n, validName n = true) (pre ++ g :: post) →
  Forall (λ n, validName n = true) (pre ++ post).
Proof.
  rewrite !Forall_app, Forall_cons. tauto.
Qed.

(** A route names exactly the appended directory names, in their order. *)
Lemma finalRouteOf_components (names : list string) (route : string) :
  Forall (λ n, validName n = true) names →
  finalRouteOf (relPathOf (Some names)) = inr route →
  components route = filter (λ s, appended s = true) names.
Proof.
  intros Hvalid. rewrite finalRouteOf_names by done.
  destruct (segmentLoop names []) as [|final] eqn:E; [done |]. intros [= <-].
  apply segmentLoop_inr in E as [E _]. rewrite <- E.
  apply components_route. rewrite E.
  apply Forall_forall. intros s [Hs Hin]%list_elem_of_filter.
  rewrite Forall_forall in Hvalid.
  apply Hvalid, validName_inv in Hin as (? & ? & _). done.
Qed.

(** C2, as stated, fails: [(...x)] begins with an opening parenthesis,
    ends with a closing one and is none of the three markers, yet it is
    kept and is a component of the emitted route. *)
Lemma route_group_with_dots_kept :
  ¬ (∀ (g : string) (pre post : list string) (route : string),
       Forall (λ n, validName n = true) (pre ++ g :: post) →
       strings.HasPrefix g "(" = true → strings.HasSuffix g ")" = true →
       interceptorMarker g = false →
       finalRouteOf (relPathOf (Some (pre ++ g :: post))) = inr route →
       g ∉ components route).
Proof.
  intros Hclaim.
  apply (Hclaim "(...x)" ["a"] ["b"] "/a/(...x)/b"); try reflexivity.
  - by repeat constructor.
  - change (components "/a/(...x)/b") with ["a"; "(...x)"; "b"]. right. left.
Qed.

(** C2, amended. A segment that begins with an opening parenthesis,
    ends with a closing one, is none of the three interceptor markers
    and does not begin with [(...] is dropped: the route of the path is
    the route of the path without the segment, the segment is no
    component of an emitted route, and the components are the kept
    names of the rest, in their order. *)
Theorem route_group_dropped (g : string) (pre post : list string) :
  Forall (λ n, validName n = true) (pre ++ g :: post) →
  strings.HasPrefix g "(" = true → strings.HasSuffix g ")" = true →
  interceptorMarker g = false →
  strings.HasPrefix g "(..." = false →
  finalRouteOf (relPathOf (Some (pre ++ g :: post)))
  = finalRouteOf (relPathOf (Some (pre ++ post)))
  ∧ ∀ route,
      finalRouteOf (relPathOf (Some (pre ++ g :: post))) = inr route →
      (g ∉ components route)
      ∧ components route = filter (λ s, appended s = true) (pre ++ post).
Proof.
  intros Hvalid Hopen Hclose _ Hdots.
  pose proof (segmentAction_group g Hopen Hclose Hdots) as Hg.
  pose proof (Forall_validName_drop g pre post Hvalid) as Hvalid'.
  assert (Hsame : finalRouteOf (relPathOf (Some (pre ++ g :: post)))
                  = finalRouteOf (relPathOf (Some (pre ++ post)))).
  { rewrite !finalRouteOf_names by done. by rewrite segmentLoop_drop. }
  split; [done |]. intros route Hroute.
  rewrite Hsame in Hroute.
  rewrite (finalRouteOf_components _ _ Hvalid' Hroute). split; [| done].
  intros [Happ _]%list_elem_of_filter. unfold appended in Happ.
  by rewrite Hg in Happ.
Qed.

Lemma route_group_dropped_witness :
  finalRouteOf (relPathOf (Some (["a"] ++ "(marketing)" :: ["b"])))
  = finalRouteOf (relPathOf (Some (["a"] ++ ["b"])))
  ∧ ∀ route,
      finalRouteOf (relPathOf (Some (["a"] ++ "(marketing)" :: ["b"])))
      = inr route →
      ("(marketing)" ∉ components route)
      ∧ components route = filter (λ s, appended s = true) (["a"] ++ ["b"]).
Proof.
  apply (route_group_dropped "(marketing)" ["a"] ["b"]); try reflexivity.
  by repeat constructor.
Defined.

Lemma WalkDir_treeABC :
  WalkDir (inr treeABC) walkFn st0
  = ({| routeSet := {["/a/b/c"]}; logLines := [] |}, None).
Proof. vm_compute. reflexivity. Qed.

Lemma WalkDir_treeABCid :
  WalkDir (inr treeABCid) walkFn st0
  = ({| routeSet := {["/a/b/c"]};
        logLines := ["Info: Skipping dynamic route: /a/b/c/[id]"] |}, None).
Proof. vm_compute. reflexivity. Qed.

Lemma discover_treeABC `{GoRuntime} :
  findStaticRoutes (inr treeABC) = ([], inr ["/a/b/c"]).
Proof.
  unfold findStaticRoutes. fold st0. rewrite WalkDir_treeABC.
  cbn [routeSet logLines]. by rewrite rangeKeys_singleton.
Qed.

Lemma discover_treeABCid `{GoRuntime} :
  findStaticRoutes (inr treeABCid)
  = (["Info: Skipping dynamic route: /a/b/c/[id]"], inr ["/a/b/c"]).
Proof.
  unfold findStaticRoutes. fold st0. rewrite WalkDir_treeABCid.
  cbn [routeSet logLines]. by rewrite rangeKeys_singleton.
Qed.

(** C3. The tree with [a/b/c/page.tsx] yields exactly the route
    [/a/b/c]; with [a/b/c/[id]/page.tsx] added it still yields [/a/b/c]
    only: the page of the dynamic child is skipped (and logged), the
    route of its parent stays. *)
Theorem dynamic_child_leaves_parent_route `{GoRuntime} :
  findStaticRoutes (inr treeABC) = ([], inr ["/a/b/c"])
  ∧ findStaticRoutes (inr treeABCid)
    = (["Info: Skipping dynamic route: /a/b/c/[id]"], inr ["/a/b/c"]).
Proof. split; [apply discover_treeABC | apply discover_treeABCid]. Qed.

(** C4. A page file whose directory path holds a segment beginning with
    an underscore contributes no route, whatever the other segments are:
    the path has no route, and the callback returns [nil] with
    [routeSet] as it was. *)
Theorem private_segment_disqualifies (st : WalkState) (names : list string)
    (s : string) (d : DirEntry) :
  Forall (λ n, validName n = true) names →
  s ∈ names → strings.HasPrefix s "_" = true →
  isPageFile d = true →
  routeAt (Some names) = None
  ∧ routeSet (walkFn st (Some names) (Some d) None).1 = routeSet st
  ∧ (walkFn st (Some names) (Some d) None).2 = None.
Proof.
  intros Hvalid Hin Hs Hd.
  assert (Hnone : routeAt (Some names) = None).
  { unfold routeAt. rewrite finalRouteOf_names by done.
    destruct (segmentLoop_return names s PrivateSegment Hin
                (segmentAction_private s Hs)) as [r ->]. done. }
  rewrite walkFn_entry, Hd. cbn [fst snd].
  by rewrite visitPage_routeSet, Hnone.
Qed.

Lemma private_segment_disqualifies_witness :
  routeAt (Some ["shop"; "_components"; "cart"]) = None
  ∧ routeSet (walkFn st0 (Some ["shop"; "_components"; "cart"])
                (Some {| Name := "page.js"; IsDir := false |}) None).1
    = routeSet st0
  ∧ (walkFn st0 (Some ["shop"; "_components"; "cart"])
       (Some {| Name := "page.js"; IsDir := false |}) None).2 = None.
Proof.
  apply (private_segment_disqualifies st0 ["shop"; "_components"; "cart"]
           "_components"); try reflexivity.
  - by repeat constructor.
  - right. left.
Defined.

(** C5. Every route discovery emits is canonical: it begins with a
    slash and ends with one only when it is the root route; and a page
    whose directory names are all dropped by the loop (route groups, or
    no name at all: the root directory) has the route [/]. *)
Theorem routes_canonical `{GoRuntime} :
  (∀ root logged routes,
     findStaticRoutes root = (logged, inr routes) → Forall canonical routes)
  ∧ (∀ names,
       Forall (λ n, validName n = true) names →
       Forall (λ s, segmentAction s = Continue) names →
       finalRouteOf (relPathOf (Some names)) = inr "/").
Proof.
  split.
  - intros root logged routes Hres.
    apply findStaticRoutes_inr in Hres as (n & _ & _ & _ & Hroutes).
    apply Forall_forall. intros route Hin.
    apply Hroutes in Hin as (loc & _ & Hloc). unfold routeAt in Hloc.
    destruct (finalRouteOf (relPathOf loc)) as [|route'] eqn:E; [done |].
    injection Hloc as ->. by apply finalRouteOf_canonical in E.
  - intros names Hvalid Hdropped.
    rewrite finalRouteOf_names by done.
    rewrite segmentLoop_no_return.
    + replace (filter (λ s, appended s = true) names) with (@nil string);
        [done |].
      symmetry. clear Hvalid.
      induction Hdropped as [|s l Hs _ IH]; [done |].
      rewrite filter_cons_False; [done |]. unfold appended. by rewrite Hs.
    + eapply Forall_impl; [exact Hdropped |]. intros s Hs r. simpl in Hs.
      by rewrite Hs.
Qed.

Lemma routes_canonical_witness :
  Forall canonical ["/a/b/c"]
  ∧ finalRouteOf (relPathOf (Some ["(shop)"; "(main)"])) = inr "/".
Proof.
  split.
  - apply (proj1 (routes_canonical (H := referenceRuntime)) (inr treeABC) []).
    apply discover_treeABC.
  - apply (proj2 (routes_canonical (H := referenceRuntime))).
    + by repeat constructor.
    + by repeat constructor.
Defined.

(** C6. The warm-up driver requests every discovered route exactly once,
    in an order in which the length of the route never decreases. (No
    order is fixed among routes of the same length.) *)
Theorem warmup_visits_by_length `{GoRuntime} (w : World) (appPath : string)
    (logged routes : list string) :
  (findAppDirectory (os_Stat w)).2 = Some appPath →
  findStaticRoutes (treeAt w appPath) = (logged, inr routes) →
  ∃ visited,
    httpGets (main w).1 = (λ route, baseURL +:+ route) <$> visited
    ∧ visited ≡ₚ routes
    ∧ NoDup visited
    ∧ StronglySorted (λ a b, (String.length a ≤ String.length b)%nat) visited.
Proof.
  intros Happ Hroutes. exists (sort_Slice routes lessByLen).
  split; [by eapply httpGets_main |].
  split; [apply sort_Slice_perm |].
  split; [| apply sort_Slice_by_length].
  rewrite sort_Slice_perm.
  by apply findStaticRoutes_inr in Hroutes as (n & _ & _ & Hnodup & _).
Qed.

Lemma warmup_visits_by_length_witness :
  ∃ visited,
    httpGets (main (H := referenceRuntime) (worldWith treeSite)).1
    = (λ route, baseURL +:+ route) <$> visited
    ∧ visited ≡ₚ ["/about"; "/blog/post"; "/"]
    ∧ NoDup visited
    ∧ StronglySorted (λ a b, (String.length a ≤ String.length b)%nat) visited.
Proof.
  apply (warmup_visits_by_length (H := referenceRuntime)
           (worldWith treeSite) "app" []); reflexivity.
Defined.

(** C7. The loop never stops early: whatever the outcomes of the
    requests, every route is requested, in order; each request is
    followed by its report (the error, or the status after the body is
    closed), then by a sleep of one second, then by the rest of the
    loop. *)
Theorem warmup_continues_after_failure
    (get : nat → string → error + Response) (k : nat) :
  (∀ routes,
     httpGets (warmLoop get k routes) = (λ route, baseURL +:+ route) <$> routes)
  ∧ (∀ pre route rest,
       let url := baseURL +:+ route in
       warmLoop get k (pre ++ route :: rest)
       = warmLoop get k pre
         ++ [EvGetLine url; EvHttpGet url]
         ++ match get (k + length pre)%nat url with
            | inl err => [EvPrintError err]
            | inr resp => [EvBodyClose; EvPrintStatus (Status resp)]
            end
         ++ [EvSleep 1]
         ++ warmLoop get (S (k + length pre)) rest).
Proof.
  split; [apply httpGets_warmLoop |].
  intros pre route rest url. rewrite warmLoop_app. f_equal.
  cbn [warmLoop]. fold url. cbn [app]. do 2 f_equal.
  by destruct (get (k + length pre)%nat url).
Qed.

(** C8. When the traversal meets an error (the root cannot be examined,
    or some directory cannot be read), [findStaticRoutes] returns the
    error and no route list, [main] ends with the fatal exit, and no
    request is made. *)
Theorem traversal_error_is_fatal `{GoRuntime} (w : World) (appPath : string) :
  (findAppDirectory (os_Stat w)).2 = Some appPath →
  traversalFails (treeAt w appPath) = true →
  (∃ logged err, findStaticRoutes (treeAt w appPath) = (logged, inl err))
  ∧ (main w).2 = ExitFatal
  ∧ httpGets (main w).1 = [].
Proof.
  intros Happ Hfail.
  destruct (findStaticRoutes_error _ Hfail) as (logged & [msg] & E).
  split; [eauto |]. unfold main.
  rewrite (findAppDirectory_found _ _ Happ), E. cbn [fst snd].
  split; [done |]. by rewrite !httpGets_app, httpGets_logs.
Qed.

Lemma traversal_error_is_fatal_witness :
  (∃ logged err,
     findStaticRoutes (H := referenceRuntime)
       (treeAt (worldWith treeUnreadable) "app") = (logged, inl err))
  ∧ (main (H := referenceRuntime) (worldWith treeUnreadable)).2 = ExitFatal
  ∧ httpGets (main (H := referenceRuntime) (worldWith treeUnreadable)).1 = [].
Proof.
  apply (traversal_error_is_fatal (H := referenceRuntime)
           (worldWith treeUnreadable) "app"); reflexivity.
Defined.

(** C9. A segment that begins with one of the interceptor markers and
    does not end with a closing parenthesis (as [(.)photo]) is appended
    by the loop like a plain segment, and is a component, as it stands,
    of the route emitted for a path that holds it. *)
Theorem interceptor_prefix_kept (s : string) :
  strings.HasPrefix s "(.)" = true ∨ strings.HasPrefix s "(..)" = true
  ∨ strings.HasPrefix s "(...)" = true →
  strings.HasSuffix s ")" = false →
  segmentAction s = Append
  ∧ ∀ names route,
      Forall (λ n, validName n = true) names → s ∈ names →
      finalRouteOf (relPathOf (Some names)) = inr route →
      s ∈ components route.
Proof.
  intros Hprefix Hsuffix.
  assert (Happ : segmentAction s = Append).
  { destruct Hprefix as [H | [H | H]];
      apply HasPrefix_cons in H as (rest & -> & _);
      by apply segmentAction_open_paren. }
  split; [done |]. intros names route Hvalid Hin Hroute.
  rewrite (finalRouteOf_components _ _ Hvalid Hroute).
  apply list_elem_of_filter. split; [| done].
  unfold appended. by rewrite Happ.
Qed.

Lemma interceptor_prefix_kept_witness :
  segmentAction "(.)photo" = Append
  ∧ "(.)photo" ∈ components "/feed/(.)photo".
Proof.
  split.
  - apply (interceptor_prefix_kept "(.)photo"); [by left | reflexivity].
  - apply (proj2 (interceptor_prefix_kept "(.)photo" (or_introl eq_refl)
                    eq_refl) ["feed"; "(.)photo"]).
    + by repeat constructor.
    + right. left.
    + reflexivity.
Defined.

(** C10. [findAppDirectory] returns [app] whenever [os.Stat] succeeds on
    it, whether or not [src/app] exists and whether or not [app] is a
    directory; it returns [src/app] only when [os.Stat] fails on [app]
    and succeeds on [src/app]; when it fails on both there is no
    directory and the program ends. *)
Theorem findAppDirectory_prefers_app (stat : string → error + bool) :
  (∀ isDir, stat "app" = inr isDir → (findAppDirectory stat).2 = Some "app")
  ∧ ((findAppDirectory stat).2 = Some "src/app" ↔
       (∃ err, stat "app" = inl err) ∧ ∃ isDir, stat "src/app" = inr isDir)
  ∧ ((findAppDirectory stat).2 = None ↔
       (∃ err, stat "app" = inl err) ∧ ∃ err, stat "src/app" = inl err).
Proof.
  unfold findAppDirectory. cbn [firstFound].
  destruct (stat "app") as [e1 | d1], (stat "src/app") as [e2 | d2];
    cbn [snd];
    (split; [by intros ? [= ] || done |]); split; split;
    try done; try (intros [[? [= ]] [? [= ]]]; fail);
    try (intros [[? ?] [? ?]]; congruence); eauto.
Qed.

Lemma findAppDirectory_prefers_app_witness :
  (findAppDirectory (λ _, inr false)).2 = Some "app"
  ∧ (findAppDirectory
       (λ path, if String.eqb path "app"
                then inl (errorString "no such file or directory")
                else inr true)).2
    = Some "src/app".
Proof.
  split.
  - apply (proj1 (findAppDirectory_prefers_app (λ _, inr false)) false).
    reflexivity.
  - apply (proj1 (proj2 (findAppDirectory_prefers_app _))).
    split; eexists; reflexivity.
Defined.

(** * Further properties of the callback *)

Lemma segmentAction_parallel (s : string) :
  strings.HasPrefix s "@" = true → segmentAction s = Return ParallelSlot.
Proof.
  intros (rest & -> & _)%HasPrefix_cons.
  unfold segmentAction, strings.HasPrefix. simpl. by destruct rest.
Qed.

Lemma segmentAction_dynamic (s : string) :
  strings.HasPrefix s "[" = true → strings.HasSuffix s "]" = true →
  segmentAction s = Return DynamicRoute.
Proof.
  intros (rest & -> & _)%HasPrefix_cons Hclose.
  unfold segmentAction. rewrite Hclose.
  unfold strings.HasPrefix. simpl. by destruct rest.
Qed.

Lemma segmentAction_open_bracket (rest : string) :
  strings.HasSuffix (String "[" rest) "]" = false →
  segmentAction (String "[" rest) = Append.
Proof.
  intros Hclose. unfold segmentAction. rewrite Hclose.
  unfold strings.HasPrefix. simpl. by destruct rest.
Qed.

Lemma HasPrefix_other_byte (c a : ascii) (rest : string) :
  c ≠ a → strings.HasPrefix (String c rest) (String a "") = false.
Proof.
  intros Hne. destruct (strings.HasPrefix _ _) eqn:E; [| done].
  apply HasPrefix_byte in E as [rest' [= ? _]]. done.
Qed.

Lemma segmentAction_plainStart (s : string) :
  plainStart s = true → segmentAction s = Append.
Proof.
  destruct s as [|c rest]; [done |]. unfold plainStart.
  rewrite !andb_true_iff, !negb_true_iff, !Ascii.eqb_neq.
  intros [[[H1 H2] H3] H4].
  unfold segmentAction.
  rewrite (HasPrefix_other_byte c "_"), (HasPrefix_other_byte c "("),
    (HasPrefix_other_byte c "@"), (HasPrefix_other_byte c "[") by done.
  apply Ascii.eqb_neq in H2. cbn [String.eqb andb orb]. by rewrite H2.
Qed.

(** X3. A page file whose directory path holds a parallel-route slot (a
    segment beginning with [@]), a dynamic segment (beginning with an
    opening and ending with a closing bracket) or the marker [(...)]
    emits no route: the callback returns [nil], leaves [routeSet] as it
    was and logs one line. *)
Theorem disqualifying_segment_skips_path (st : WalkState)
    (names : list string) (s : string) (d : DirEntry) :
  Forall (λ n, validName n = true) names →
  s ∈ names →
  strings.HasPrefix s "@" = true
  ∨ (strings.HasPrefix s "[" = true ∧ strings.HasSuffix s "]" = true)
  ∨ s = "(...)" →
  isPageFile d = true →
  ∃ line,
    walkFn st (Some names) (Some d) None
    = ({| routeSet := routeSet st; logLines := logLines st ++ [line] |}, None).
Proof.
  intros Hvalid Hin Hs Hd.
  assert (∃ r, segmentAction s = Return r) as [r Hr].
  { destruct Hs as [H | [[H1 H2] | ->]].
    - eexists. by apply segmentAction_parallel.
    - eexists. by apply segmentAction_dynamic.
    - by eexists. }
  destruct (segmentLoop_return names s r Hin Hr) as [r' Hloop].
  unfold walkFn. rewrite Hd. cbn [negb].
  rewrite finalRouteOf_names, Hloop by done. eauto.
Qed.

Lemma disqualifying_segment_skips_path_witness :
  ∃ line,
    walkFn st0 (Some ["dashboard"; "@team"])
      (Some {| Name := "page.tsx"; IsDir := false |}) None
    = ({| routeSet := routeSet st0; logLines := logLines st0 ++ [line] |},
       None).
Proof.
  apply (disqualifying_segment_skips_path st0 ["dashboard"; "@team"] "@team").
  - by repeat constructor.
  - right. left.
  - by left.
  - reflexivity.
Defined.

(** X4. A segment that begins with an opening bracket and does not end
    with a closing one is not taken for a dynamic segment: the loop
    appends it, and it is a component of the route emitted for a path
    that holds it. *)
Theorem unclosed_bracket_kept (s : string) :
  strings.HasPrefix s "[" = true → strings.HasSuffix s "]" = false →
  segmentAction s = Append
  ∧ ∀ names route,
      Forall (λ n, validName n = true) names → s ∈ names →
      finalRouteOf (relPathOf (Some names)) = inr route →
      s ∈ components route.
Proof.
  intros (rest & -> & _)%HasPrefix_cons Hclose.
  pose proof (segmentAction_open_bracket rest Hclose) as Happ.
  split; [done |]. intros names route Hvalid Hin Hroute.
  rewrite (finalRouteOf_components _ _ Hvalid Hroute).
  apply list_elem_of_filter. split; [| done].
  unfold appended. by rewrite Happ.
Qed.

Lemma unclosed_bracket_kept_witness :
  segmentAction "[id" = Append ∧ "[id" ∈ components "/users/[id".
Proof.
  split.
  - by apply (unclosed_bracket_kept "[id").
  - apply (proj2 (unclosed_bracket_kept "[id" eq_refl eq_refl) ["users"; "[id"]).
    + by repeat constructor.
    + right. left.
    + reflexivity.
Defined.

(** X5. For directory names that all begin with a byte other than [_],
    [(], [@] and [[], the route is the slash followed by the names joined
    with slashes, and splitting the route gives the names back. *)
Theorem plain_path_route (names : list string) :
  Forall (λ n, validName n = true) names →
  Forall (λ n, plainStart n = true) names →
  finalRouteOf (relPathOf (Some names)) = inr ("/" +:+ strings.Join names "/")
  ∧ components ("/" +:+ strings.Join names "/") = names.
Proof.
  intros Hvalid Hplain.
  assert (Hkeep : filter (λ s, appended s = true) names = names).
  { clear Hvalid. induction Hplain as [|s l Hs _ IH]; [done |].
    rewrite filter_cons_True, IH; [done |].
    unfold appended. by rewrite (segmentAction_plainStart s Hs). }
  assert (Hroute : finalRouteOf (relPathOf (Some names))
                   = inr ("/" +:+ strings.Join names "/")).
  { rewrite finalRouteOf_names by done. rewrite segmentLoop_no_return.
    - by rewrite Hkeep.
    - eapply Forall_impl; [exact Hplain |]. intros s Hs r. simpl in Hs.
      by rewrite (segmentAction_plainStart s Hs). }
  split; [done |].
  by rewrite (finalRouteOf_components _ _ Hvalid Hroute).
Qed.

Lemma plain_path_route_witness :
  finalRouteOf (relPathOf (Some ["blog"; "post"]))
  = inr ("/" +:+ strings.Join ["blog"; "post"] "/")
  ∧ components ("/" +:+ strings.Join ["blog"; "post"] "/") = ["blog"; "post"].
Proof.
  apply (plain_path_route ["blog"; "post"]); by repeat constructor.
Defined.

(** X6. The test [finalRoute == "//"] after the loop never holds: for
    every relative path, the slash followed by the joined final segments
    is not [//]. (When every segment is dropped the join is empty and
    the route is already [/].) *)
Theorem double_slash_test_never_holds (relPath : string)
    (finalSegments : list string) :
  segmentLoop (strings.Split (routeOfRel relPath) slash) [] = inr finalSegments →
  String.eqb ("/" +:+ strings.Join finalSegments "/") "//" = false
  ∧ finalRouteOf relPath = inr ("/" +:+ strings.Join finalSegments "/").
Proof.
  intros Hloop. split.
  - apply segmentLoop_Split_final, Join_not_slash in Hloop.
    apply String.eqb_neq. intros [= E]. done.
  - by rewrite finalRouteOf_eq, Hloop.
Qed.

Lemma double_slash_test_never_holds_witness :
  String.eqb ("/" +:+ strings.Join [] "/") "//" = false
  ∧ finalRouteOf "(shop)" = inr ("/" +:+ strings.Join [] "/").
Proof. by apply (double_slash_test_never_holds "(shop)" []). Defined.

(** X2. Page files whose paths have the same final route give one entry
    of [routeSet]: after the callback has run on the first, running it on
    the second leaves [routeSet] as it is. (Two page files of one
    directory; a directory and its twin inside a route group.) *)
Theorem same_route_inserted_once (st : WalkState) (loc1 loc2 : Location)
    (d1 d2 : DirEntry) :
  isPageFile d1 = true → isPageFile d2 = true →
  finalRouteOf (relPathOf loc1) = finalRouteOf (relPathOf loc2) →
  let st1 := (walkFn st loc1 (Some d1) None).1 in
  routeSet (walkFn st1 loc2 (Some d2) None).1 = routeSet st1.
Proof.
  intros Hd1 Hd2 Hsame st1. subst st1.
  rewrite !walkFn_entry, Hd1, Hd2. cbn [fst].
  rewrite !visitPage_routeSet. unfold routeAt. rewrite Hsame.
  destruct (finalRouteOf (relPathOf loc2)) as [|route]; [done |].
  by rewrite (assoc_L (∪)), (idemp_L (∪)).
Qed.

Lemma same_route_inserted_once_witness :
  let st1 := (walkFn st0 (Some ["(marketing)"; "about"])
                (Some {| Name := "page.tsx"; IsDir := false |}) None).1 in
  routeSet (walkFn st1 (Some ["about"])
              (Some {| Name := "page.js"; IsDir := false |}) None).1
  = routeSet st1.
Proof.
  apply (same_route_inserted_once st0 (Some ["(marketing)"; "about"])
           (Some ["about"])); reflexivity.
Defined.

(** X1. A successful discovery returns each route once, and returns
    exactly the routes of the page files of the tree: a route is in the
    list if and only if the walk finds a page file whose path has that
    final route. *)
Theorem discovered_routes_exact `{GoRuntime} (root : error + Node)
    (logged routes : list string) :
  findStaticRoutes root = (logged, inr routes) →
  NoDup routes
  ∧ ∃ n, root = inr n
         ∧ ∀ route, route ∈ routes ↔
             ∃ loc, loc ∈ pageLocations None n
                    ∧ finalRouteOf (relPathOf loc) = inr route.
Proof.
  intros (n & -> & _ & Hnodup & Hroutes)%findStaticRoutes_inr.
  split; [done |]. exists n. split; [done |]. intros route.
  rewrite Hroutes. unfold routeAt.
  split; intros (loc & Hin & Hloc); exists loc; split; try done.
  - destruct (finalRouteOf (relPathOf loc)); by simplify_eq.
  - by rewrite Hloc.
Qed.

Lemma discovered_routes_exact_witness :
  NoDup ["/about"; "/blog/post"; "/"]
  ∧ ∃ n, @inr error Node treeSite = inr n
         ∧ ∀ route, route ∈ ["/about"; "/blog/post"; "/"] ↔
             ∃ loc, loc ∈ pageLocations None n
                    ∧ finalRouteOf (relPathOf loc) = inr route.
Proof.
  apply (discovered_routes_exact (H := referenceRuntime) (inr treeSite) []).
  reflexivity.
Defined.

(** * Further properties of the walk *)

Lemma visitPage_logLines st loc :
  logLines (visitPage st loc)
  = logLines st ++ match skipLogAt loc with Some line => [line] | None => [] end.
Proof.
  unfold visitPage, skipLogAt, walkFn. rewrite isPageFile_page_tsx. simpl.
  destruct (finalRouteOf (relPathOf loc)); simpl; [done |].
  by rewrite app_nil_r.
Qed.

Lemma foldl_visitPage_logLines (locs : list Location) (st : WalkState) :
  logLines (foldl visitPage st locs) = logLines st ++ omap skipLogAt locs.
Proof.
  revert st. induction locs as [|loc locs IH]; intros st; simpl.
  - by rewrite app_nil_r.
  - rewrite IH, visitPage_logLines, <- app_assoc.
    by destruct (skipLogAt loc).
Qed.

(** X7. Every page file the callback skips is logged, once and in the
    order of the walk, and nothing else is: the lines logged by a
    successful discovery are the skip lines of the page files whose path
    has no route. *)
Theorem skipped_pages_logged `{GoRuntime} (root : error + Node)
    (logged routes : list string) :
  findStaticRoutes root = (logged, inr routes) →
  ∃ n, root = inr n ∧ logged = omap skipLogAt (pageLocations None n).
Proof.
  intros Hres.
  destruct (findStaticRoutes_inr _ _ _ Hres) as (n & -> & Hok & _).
  exists n. split; [done |].
  unfold findStaticRoutes, WalkDir in Hres.
  rewrite (walkDir_ok n None _ Hok) in Hres. injection Hres as <- _.
  by rewrite foldl_visitPage_logLines.
Qed.

Lemma skipped_pages_logged_witness :
  ∃ n, @inr error Node treeABCid = inr n
       ∧ ["Info: Skipping dynamic route: /a/b/c/[id]"]
         = omap skipLogAt (pageLocations None n).
Proof.
  apply (skipped_pages_logged (H := referenceRuntime) (inr treeABCid)
           ["Info: Skipping dynamic route: /a/b/c/[id]"] ["/a/b/c"]).
  reflexivity.
Defined.

Lemma walkEntries_firstError (walk : Node → WalkState → WalkState * option error)
    (entries : list Node) :
  Forall (λ d, ∀ st, (walk d st).2 = firstReadError d) entries →
  ∀ st, (walkEntries walk entries st).2 = head (omap firstReadError entries).
Proof.
  induction 1 as [|d ds Hd _ IH]; intros st; [done |].
  rewrite walkEntries_cons. specialize (Hd st).
  destruct (walk d st) as [st' [e|]]; simpl in Hd; cbn [omap list_omap];
    rewrite <- Hd; [done | apply IH].
Qed.

Lemma walkDir_firstError (n : Node) :
  ∀ loc st, (walkDir walkFn loc n st).2 = firstReadError n.
Proof.
  induction n as [name | name entries readErr IH] using Node_nested_ind;
    intros loc st.
  - cbn [walkDir]. rewrite walkFn_entry. by destruct (isPageFile _).
  - cbn [walkDir firstReadError]. rewrite walkFn_directory.
    destruct readErr as [e|]; [by rewrite walkFn_error |].
    apply walkEntries_firstError.
    eapply Forall_impl; [exact IH |]. intros d Hd st'. apply Hd.
Qed.

(** X8. The error a failed discovery returns is the first one the walk
    comes to: the error of [os.Lstat] on the root, or else the read
    error of the first unreadable directory in the order of the walk;
    [main] ends by logging it after [Error discovering routes: ]. *)
Theorem first_traversal_error_reported `{GoRuntime} (w : World)
    (appPath msg : string) :
  (findAppDirectory (os_Stat w)).2 = Some appPath →
  firstError (treeAt w appPath) = Some (errorString msg) →
  (findStaticRoutes (treeAt w appPath)).2 = inl (errorString msg)
  ∧ last (main w).1 = Some (EvLog ("Error discovering routes: " +:+ msg))
  ∧ (main w).2 = ExitFatal.
Proof.
  intros Happ Herr.
  assert (E : (findStaticRoutes (treeAt w appPath)).2 = inl (errorString msg)).
  { unfold findStaticRoutes, WalkDir.
    destruct (treeAt w appPath) as [e | n]; simpl in Herr.
    - injection Herr as ->. done.
    - pose proof (walkDir_firstError n None {| routeSet := ∅; logLines := [] |})
        as Hwalk.
      destruct (walkDir walkFn None n _) as [st' o]. simpl in Hwalk.
      rewrite Hwalk, Herr. done. }
  split; [done |]. unfold main. rewrite (findAppDirectory_found _ _ Happ).
  destruct (findStaticRoutes (treeAt w appPath)) as [logged res].
  simpl in E. subst res. cbn [fst snd]. split; [| done].
  by rewrite !app_assoc, last_snoc.
Qed.

Lemma first_traversal_error_reported_witness :
  (findStaticRoutes (H := referenceRuntime)
     (treeAt (worldWith treeUnreadable) "app")).2
  = inl (errorString "permission denied")
  ∧ last (main (H := referenceRuntime) (worldWith treeUnreadable)).1
    = Some (EvLog ("Error discovering routes: " +:+ "permission denied"))
  ∧ (main (H := referenceRuntime) (worldWith treeUnreadable)).2 = ExitFatal.
Proof.
  apply (first_traversal_error_reported (H := referenceRuntime)
           (worldWith treeUnreadable) "app"); reflexivity.
Defined.



(** * Further properties of [main] *)

Lemma sleptSeconds_app (t1 t2 : list Event) :
  sleptSeconds (t1 ++ t2) = (sleptSeconds t1 + sleptSeconds t2)%nat.
Proof. unfold sleptSeconds. by rewrite omap_app, sum_list_with_app. Qed.

Lemma sleptSeconds_logs (lines : list string) :
  sleptSeconds (EvLog <$> lines) = 0%nat.
Proof. unfold sleptSeconds. induction lines as [|l lines IH]; simpl; auto. Qed.

Lemma sleptSeconds_warmLoop get k (routes : list string) :
  sleptSeconds (warmLoop get k routes) = length routes.
Proof.
  revert k. induction routes as [|route routes IH]; intros k; [done |].
  cbn [warmLoop length]. rewrite !sleptSeconds_app, IH.
  by destruct (get k (baseURL +:+ route)).
Qed.

(** X10. When discovery succeeds and no page file has a route (there is
    no page file, or each one is skipped), [main] says that there is
    nothing to warm up and ends successfully without a request. *)
Theorem no_routes_no_requests `{GoRuntime} (w : World) (appPath : string)
    (n : Node) :
  (findAppDirectory (os_Stat w)).2 = Some appPath →
  treeAt w appPath = inr n →
  hasReadError n = false →
  (∀ loc, loc ∈ pageLocations None n →
          ∃ r, finalRouteOf (relPathOf loc) = inl r) →
  last (main w).1 = Some (EvPrintln "No static routes found to warm up.")
  ∧ (main w).2 = ExitOK
  ∧ httpGets (main w).1 = [].
Proof.
  intros Happ Htree Hok Hskipped.
  assert (Hnone : omap routeAt (pageLocations None n) = []).
  { induction (pageLocations None n) as [|loc locs IH]; [done |].
    destruct (Hskipped loc) as [r Hr]; [left |].
    cbn [omap list_omap]. unfold routeAt at 1. rewrite Hr.
    apply IH. intros loc' Hin. apply Hskipped. by right. }
  destruct (findStaticRoutes_ok n Hok) as (logged & routes & E & Hperm).
  rewrite Hnone in Hperm. cbn [list_to_set foldr] in Hperm.
  rewrite elements_empty in Hperm. apply Permutation_nil_r in Hperm as ->.
  unfold main. rewrite (findAppDirectory_found _ _ Happ), Htree, E.
  cbn [length Nat.eqb fst snd]. split; [| split; [done |]].
  - by rewrite !app_assoc, last_snoc.
  - by rewrite !httpGets_app, httpGets_logs.
Qed.

Lemma no_routes_no_requests_witness :
  let w := worldWith (Dir "app" [Dir "[slug]" [File "page.tsx"] None;
                                 File "layout.tsx"] None) in
  last (main (H := referenceRuntime) w).1
  = Some (EvPrintln "No static routes found to warm up.")
  ∧ (main (H := referenceRuntime) w).2 = ExitOK
  ∧ httpGets (main (H := referenceRuntime) w).1 = [].
Proof.
  eapply (no_routes_no_requests (H := referenceRuntime) _ "app");
    try reflexivity.
  intros loc Hin. cbn in Hin.
  apply list_elem_of_singleton in Hin as ->. by eexists.
Defined.

(** X11. When [os.Stat] fails on both [app] and [src/app], [main] logs
    that no app directory was found and ends with the fatal exit: the
    tree is not walked and nothing else is printed or requested. *)
Theorem no_app_directory_is_fatal `{GoRuntime} (w : World) (e1 e2 : error) :
  os_Stat w "app" = inl e1 → os_Stat w "src/app" = inl e2 →
  main w
  = ([EvLog "Error: Could not find 'app' or 'src/app' directory. This tool must be run from the root of a Next.js app router project."],
     ExitFatal).
Proof.
  intros H1 H2. unfold main, findAppDirectory. cbn [firstFound].
  by rewrite H1, H2.
Qed.

Lemma no_app_directory_is_fatal_witness :
  main (H := referenceRuntime)
    {| os_Stat := λ _, inl (errorString "no such file or directory");
       treeAt := λ _, inr treeSite;
       client_Get := λ _ _, inr {| Status := "200 OK" |} |}
  = ([EvLog "Error: Could not find 'app' or 'src/app' directory. This tool must be run from the root of a Next.js app router project."],
     ExitFatal).
Proof.
  by apply (no_app_directory_is_fatal (H := referenceRuntime) _
              (errorString "no such file or directory")
              (errorString "no such file or directory")).
Defined.

(** X12. When discovery returns at least one route, [main] runs to the
    end whatever the outcomes of the requests are: it announces the
    number of routes, sleeps one second per route, prints that the
    warm-up is complete and ends successfully. *)
Theorem run_completes_despite_failures `{GoRuntime} (w : World)
    (appPath : string) (logged routes : list string) :
  (findAppDirectory (os_Stat w)).2 = Some appPath →
  findStaticRoutes (treeAt w appPath) = (logged, inr routes) →
  routes ≠ [] →
  EvFound (length routes) ∈ (main w).1
  ∧ sleptSeconds (main w).1 = length routes
  ∧ last (main w).1 = Some (EvPrintln (newline +:+ "Warm-up complete."))
  ∧ (main w).2 = ExitOK.
Proof.
  intros Happ Hroutes Hne. unfold main.
  rewrite (findAppDirectory_found _ _ Happ), Hroutes.
  destruct routes as [|route routes]; [done |].
  cbn [length Nat.eqb fst snd].
  pose proof (Permutation_length (sort_Slice_perm (route :: routes) lessByLen))
    as Hlen. cbn [length] in Hlen. rewrite Hlen.
  split; [| split; [| split; [| done]]].
  - rewrite !elem_of_app. do 2 right. left. left.
  - rewrite !sleptSeconds_app, sleptSeconds_logs, sleptSeconds_warmLoop, Hlen.
    cbn. lia.
  - by rewrite !app_assoc, last_snoc.
Qed.

Lemma run_completes_despite_failures_witness :
  EvFound (length ["/about"; "/blog/post"; "/"])
    ∈ (main (H := referenceRuntime) (worldWith treeSite)).1
  ∧ sleptSeconds (main (H := referenceRuntime) (worldWith treeSite)).1
    = length ["/about"; "/blog/post"; "/"]
  ∧ last (main (H := referenceRuntime) (worldWith treeSite)).1
    = Some (EvPrintln (newline +:+ "Warm-up complete."))
  ∧ (main (H := referenceRuntime) (worldWith treeSite)).2 = ExitOK.
Proof.
  apply (run_completes_despite_failures (H := referenceRuntime)
           (worldWith treeSite) "app" []); [reflexivity | reflexivity | done].
Defined.

(** The requests of [main] are those of the sorted routes of a
    successful discovery, if any. *)
Lemma httpGets_main_cases `{GoRuntime} (w : World) :
  httpGets (main w).1 = []
  ∨ ∃ appPath logged routes,
      (findAppDirectory (os_Stat w)).2 = Some appPath
      ∧ findStaticRoutes (treeAt w appPath) = (logged, inr routes)
      ∧ httpGets (main w).1
        = (λ route, baseURL +:+ route) <$> sort_Slice routes lessByLen.
Proof.
  destruct (findAppDirectory (os_Stat w)) as [logs [appPath|]] eqn:Happ.
  - destruct (findStaticRoutes (treeAt w appPath)) as [logged [[msg]|routes]]
      eqn:Hres.
    + left. unfold main. rewrite Happ, Hres. cbn [fst].
      assert (Hfound := findAppDirectory_found (os_Stat w) appPath).
      rewrite Happ in Hfound. injection (Hfound eq_refl) as ->.
      by rewrite !httpGets_app, httpGets_logs.
    + right. exists appPath, logged, routes.
      assert (Hsnd : (findAppDirectory (os_Stat w)).2 = Some appPath)
        by (by rewrite Happ).
      split; [done |]. split; [done |]. by eapply httpGets_main.
  - left. unfold main. rewrite Happ.
    unfold findAppDirectory in Happ.
    destruct (firstFound _ _); by simplify_eq.
Qed.

(** X13. Every URL [main] requests is the base URL followed by a route
    that begins with a slash: it begins with [http://localhost:3000/]. *)
Theorem requested_urls_are_local `{GoRuntime} (w : World) (url : string) :
  url ∈ httpGets (main w).1 →
  strings.HasPrefix url "http://localhost:3000/" = true
  ∧ ∃ route, url = baseURL +:+ route ∧ canonical route.
Proof.
  intros Hin.
  destruct (httpGets_main_cases w) as [E | (appPath & logged & routes & _ & Hres & E)];
    rewrite E in Hin; [by apply elem_of_nil in Hin |].
  apply list_elem_of_fmap in Hin as (route & -> & Hroute).
  rewrite sort_Slice_perm in Hroute.
  apply findStaticRoutes_inr in Hres as (n & _ & _ & _ & Hroutes).
  apply Hroutes in Hroute as (loc & _ & Hloc). unfold routeAt in Hloc.
  destruct (finalRouteOf (relPathOf loc)) as [|route'] eqn:Hfinal; [done |].
  injection Hloc as ->. apply finalRouteOf_canonical in Hfinal.
  split; [| eauto].
  destruct Hfinal as [(rest & ->)%HasPrefix_byte _].
  unfold strings.HasPrefix, baseURL. simpl. by destruct rest.
Qed.

Lemma requested_urls_are_local_witness :
  strings.HasPrefix "http://localhost:3000/about" "http://localhost:3000/" = true
  ∧ ∃ route, "http://localhost:3000/about" = baseURL +:+ route
             ∧ canonical route.
Proof.
  apply (requested_urls_are_local (H := referenceRuntime) (worldWith treeSite)).
  right. left.
Defined.

(** X14. When the root route [/] is among the discovered routes, it is
    the first route [main] requests. *)
Theorem root_route_requested_first `{GoRuntime} (w : World)
    (appPath : string) (logged routes : list string) :
  (findAppDirectory (os_Stat w)).2 = Some appPath →
  findStaticRoutes (treeAt w appPath) = (logged, inr routes) →
  "/" ∈ routes →
  head (httpGets (main w).1) = Some (baseURL +:+ "/").
Proof.
  intros Happ Hres Hroot. rewrite (httpGets_main w appPath logged routes Happ Hres).
  pose proof (sort_Slice_by_length routes) as Hsorted.
  pose proof (sort_Slice_perm routes lessByLen) as Hperm.
  rewrite <- Hperm in Hroot.
  destruct (sort_Slice routes lessByLen) as [|first rest]; [by apply elem_of_nil in Hroot |].
  cbn [fmap list_fmap head]. do 2 f_equal.
  assert (Hlen : (String.length first ≤ 1)%nat).
  { apply elem_of_cons in Hroot as [<- | Hin]; [done |].
    apply StronglySorted_inv in Hsorted as [_ Hall].
    rewrite Forall_forall in Hall. by apply (Hall "/"). }
  assert (Hfirst : first ∈ routes) by (rewrite <- Hperm; left).
  apply findStaticRoutes_inr in Hres as (n & _ & _ & _ & Hroutes).
  apply Hroutes in Hfirst as (loc & _ & Hloc). unfold routeAt in Hloc.
  destruct (finalRouteOf (relPathOf loc)) as [|route'] eqn:Hfinal; [done |].
  injection Hloc as ->.
  apply finalRouteOf_canonical in Hfinal as [(tail & ->)%HasPrefix_byte _].
  destruct tail; [done |]. simpl in Hlen. lia.
Qed.

Lemma root_route_requested_first_witness :
  head (httpGets (main (H := referenceRuntime) (worldWith treeSite)).1)
  = Some (baseURL +:+ "/").
Proof.
  apply (root_route_requested_first (H := referenceRuntime)
           (worldWith treeSite) "app" [] ["/about"; "/blog/post"; "/"]);
    [reflexivity | reflexivity |].
  do 2 right. left.
Defined.

(** * The names of page files *)

Lemma append_assoc (a b c : string) : (a +:+ b) +:+ c = a +:+ (b +:+ c).
Proof. induction a as [|x a IH]; simpl; [done | by f_equal]. Qed.

Lemma length_append (a b : string) :
  String.length (a +:+ b) = (String.length a + String.length b)%nat.
Proof. induction a as [|x a IH]; simpl; [done | by f_equal]. Qed.

Lemma substring_whole (s : string) : substring 0 (String.length s) s = s.
Proof. induction s as [|c s IH]; simpl; [done | by f_equal]. Qed.

Lemma substring_append (a b : string) :
  substring (String.length a) (String.length b) (a +:+ b) = b.
Proof. induction a as [|c a IH]; simpl; [apply substring_whole | done]. Qed.

Lemma substring_split (n : nat) :
  ∀ s, (n ≤ String.length s)%nat →
       ∃ a, s = a +:+ substring n (String.length s - n) s.
Proof.
  induction n as [|n IH]; intros s Hn.
  - exists "". by rewrite Nat.sub_0_r, substring_whole.
  - destruct s as [|c s]; simpl in Hn; [lia |].
    destruct (IH s) as [a Ha]; [lia |]. exists (String c a).
    simpl. by f_equal.
Qed.

Lemma HasSuffix_append (a suffix : string) :
  strings.HasSuffix (a +:+ suffix) suffix = true.
Proof.
  unfold strings.HasSuffix. rewrite length_append.
  replace (String.length a + String.length suffix - String.length suffix)%nat
    with (String.length a) by lia.
  rewrite substring_append, String.eqb_refl, andb_true_r.
  apply Nat.leb_le. lia.
Qed.

Lemma HasSuffix_inv (s suffix : string) :
  strings.HasSuffix s suffix = true → ∃ a, s = a +:+ suffix.
Proof.
  unfold strings.HasSuffix.
  intros [Hle Heq]%andb_true_iff. apply Nat.leb_le in Hle.
  apply String.eqb_eq in Heq.
  destruct (substring_split (String.length s - String.length suffix) s)
    as [a Ha]; [lia |].
  exists a. rewrite Ha at 1. f_equal. rewrite <- Heq at 3. f_equal. lia.
Qed.

Lemma page_prefix_split (a ext rest : string) :
  strings.HasPrefix ext "." = true →
  a +:+ ext = "page." +:+ rest →
  ∃ middle, a = "page" +:+ middle
            ∧ (middle = "" ∨ strings.HasPrefix middle "." = true).
Proof.
  intros (ext' & -> & _)%HasPrefix_cons.
  destruct a as [|c1 [|c2 [|c3 [|c4 [|c5 a]]]]]; simpl; intros E;
    try discriminate; simplify_eq.
  - exists "". by split; [| left].
  - exists (String "." a). split; [done | right].
    unfold strings.HasPrefix. simpl. by destruct a.
Qed.

Lemma pageExtensions_cases (ext : string) :
  ext ∈ pageExtensions ↔
  ext = ".js" ∨ ext = ".jsx" ∨ ext = ".ts" ∨ ext = ".tsx".
Proof.
  unfold pageExtensions. rewrite !elem_of_cons, elem_of_nil. tauto.
Qed.

Lemma pageExtensions_suffix (name : string) :
  strings.HasSuffix name ".js" || strings.HasSuffix name ".jsx"
  || strings.HasSuffix name ".ts" || strings.HasSuffix name ".tsx" = true
  ↔ ∃ ext, ext ∈ pageExtensions ∧ strings.HasSuffix name ext = true.
Proof.
  rewrite !orb_true_iff. split.
  - intros [[[H | H] | H] | H]; eexists; (split; [| exact H]);
      apply pageExtensions_cases; tauto.
  - intros (ext & [-> | [-> | [-> | ->]]]%pageExtensions_cases & H); tauto.
Qed.

(** X15. The entries taken for page files are exactly the non-directory
    entries named [page], then nothing or a part beginning with a dot,
    then one of [.js], [.jsx], [.ts], [.tsx]: so [page.tsx] and
    [page.test.tsx] are page files, and a directory never is. *)
Theorem page_file_names (d : DirEntry) :
  isPageFile d = true ↔
  IsDir d = false
  ∧ ∃ middle ext,
      ext ∈ pageExtensions
      ∧ (middle = "" ∨ strings.HasPrefix middle "." = true)
      ∧ Name d = "page" +:+ middle +:+ ext.
Proof.
  unfold isPageFile. rewrite !andb_true_iff, negb_true_iff.
  rewrite pageExtensions_suffix. split.
  - intros [[Hdir Hprefix] (ext & Hext & Hsuffix)]. split; [done |].
    apply HasSuffix_inv in Hsuffix as [a Ha].
    assert (Hrest : ∃ rest, Name d = "page." +:+ rest).
    { repeat (apply HasPrefix_cons in Hprefix as (? & ? & Hprefix); subst).
      destruct (Name d) eqn:E; [done |]. simplify_eq. by eexists. }
    destruct Hrest as [rest Hrest]. rewrite Ha in Hrest.
    destruct (page_prefix_split a ext rest) as (middle & -> & Hmiddle);
      [| done |].
    + by apply pageExtensions_cases in Hext as [-> | [-> | [-> | ->]]].
    + exists middle, ext. by rewrite Ha, append_assoc.
  - intros [Hdir (middle & ext & Hext & Hmiddle & ->)].
    split; [split; [done |] |].
    + destruct Hmiddle as [-> | (m & -> & _)%HasPrefix_cons].
      * by apply pageExtensions_cases in Hext as [-> | [-> | [-> | ->]]].
      * unfold strings.HasPrefix. simpl. by destruct (m +:+ ext).
    + exists ext. split; [done |].
      rewrite <- append_assoc. apply HasSuffix_append.
Qed.

Lemma page_file_names_witness :
  isPageFile {| Name := "page.test.tsx"; IsDir := false |} = true.
Proof.
  apply (proj2 (page_file_names {| Name := "page.test.tsx"; IsDir := false |})).
  split; [done |]. exists ".test", ".tsx".
  split; [| split; [by right | done]].
  apply pageExtensions_cases. tauto.
Defined.

(** * The line logged for a skipped path *)

Lemma segmentLoop_first_return (pre post : list string) (s : string)
    (r : SkipReason) :
  Forall (λ x, ∀ r', segmentAction x ≠ Return r') pre →
  segmentAction s = Return r →
  segmentLoop (pre ++ s :: post) [] = inl r.
Proof.
  intros Hpre Hs. generalize (@nil string).
  induction Hpre as [|x pre Hx _ IH]; intros acc; simpl.
  - by rewrite Hs.
  - destruct (segmentAction x) eqn:Ex; [apply IH | by destruct (Hx r0) |
      apply IH].
Qed.

Lemma routeOfRel_names (name : string) (names : list string) :
  Forall (λ n, validName n = true) (name :: names) →
  routeOfRel (relPathOf (Some (name :: names)))
  = "/" +:+ strings.Join (name :: names) "/".
Proof.
  intros Hvalid. unfold routeOfRel, relPathOf.
  destruct (String.eqb_spec (strings.Join (name :: names) "/") ".") as [E|_];
    [| done].
  by apply Join_names_not_dot in E.
Qed.

(** X16. The line logged for a skipped page file gives the reason of
    the first segment of its path that ends the loop, followed by the
    whole path as a route, route groups included. *)
Theorem skip_line_names_first_reason (st : WalkState)
    (pre post : list string) (s : string) (r : SkipReason) (d : DirEntry) :
  Forall (λ n, validName n = true) (pre ++ s :: post) →
  Forall (λ x, ∀ r', segmentAction x ≠ Return r') pre →
  segmentAction s = Return r →
  isPageFile d = true →
  walkFn st (Some (pre ++ s :: post)) (Some d) None
  = ({| routeSet := routeSet st;
        logLines := logLines st
                    ++ [skipLine r ("/" +:+ strings.Join (pre ++ s :: post) "/")] |},
     None).
Proof.
  intros Hvalid Hpre Hs Hd. unfold walkFn. rewrite Hd. cbn [negb].
  rewrite finalRouteOf_names by done.
  rewrite (segmentLoop_first_return pre post s r Hpre Hs).
  destruct (pre ++ s :: post) as [|name names] eqn:E;
    [by destruct pre |].
  by rewrite routeOfRel_names.
Qed.

Lemma skip_line_names_first_reason_witness :
  walkFn st0 (Some (["(shop)"] ++ "[id]" :: ["_parts"]))
    (Some {| Name := "page.tsx"; IsDir := false |}) None
  = ({| routeSet := routeSet st0;
        logLines := logLines st0
                    ++ [skipLine DynamicRoute
                          ("/" +:+ strings.Join
                                     (["(shop)"] ++ "[id]" :: ["_parts"]) "/")] |},
     None).
Proof.
  apply (skip_line_names_first_reason st0 ["(shop)"] ["_parts"] "[id]"
           DynamicRoute); try reflexivity.
  - by repeat constructor.
  - by repeat constructor.
Defined.
